(** * Finite-volume isothermal Euler solver: model and verification

    Shallow embedding of [CFD Finite Volume.py].

    Number model.  The script computes with IEEE binary64 numbers inside
    numpy arrays.  This development reads every arithmetic operation as the
    corresponding operation on the real numbers: [+], [-], [*], [/], [**2],
    [np.sqrt], [np.abs], [np.maximum], [np.min].  Rounding, [inf] and [nan]
    are outside the model; a quotient whose divisor is zero is a non-finite
    number in numpy, so every statement whose content rests on a quotient
    carries the hypothesis that the divisor is not zero.

    Array model.  A two-dimensional numpy array is a list of rows, each row
    a list of reals; [shape n m A] says that [A] has [n] rows of [m] entries.
    Elementwise operators pair up the entries of arrays of one shape, scalars
    broadcast to every entry, and [np.roll] rotates rows (axis 0) or the
    entries of every row (axis 1). *)

From Stdlib Require Import Reals Lra Lia ZArith List Bool Permutation.
Import ListNotations.

Open Scope R_scope.

(* ================================================================= *)
(** ** Cyclic rotation of a list: [np.roll] on one axis *)

Section Rotation.
Context {A : Type}.

(** [np.roll(l, -1)]: every element moves one place to the front, the
    first one wraps to the end. *)
Definition rotl (l : list A) : list A :=
  match l with
  | [] => []
  | x :: l' => l' ++ [x]
  end.

(** [np.roll(l, 1)]: every element moves one place to the back, the last
    one wraps to the front. *)
Definition rotr (l : list A) : list A := rev (rotl (rev l)).

Fixpoint iter (f : list A -> list A) (k : nat) (l : list A) : list A :=
  match k with
  | O => l
  | S k' => f (iter f k' l)
  end.

(** [np.roll(l, shift)] for a one-dimensional [l]. *)
Definition roll (shift : Z) (l : list A) : list A :=
  if (0 <=? shift)%Z then iter rotr (Z.to_nat shift) l
  else iter rotl (Z.to_nat (- shift)) l.
End Rotation.

(* ================================================================= *)
(** ** Arrays *)

Definition matrix := list (list R).

Definition shape (n m : nat) (A : matrix) : Prop :=
  length A = n /\ Forall (fun row => length row = m) A.

(** Entry [A[i][j]]; indices in the proofs are always in range. *)
Definition cell (A : matrix) (i j : nat) : R := nth j (nth i A []) 0.

Definition const_matrix (n m : nat) (c : R) : matrix := repeat (repeat c m) n.

Fixpoint zip_with {X Y Z : Type} (f : X -> Y -> Z) (a : list X) (b : list Y)
  : list Z :=
  match a, b with
  | x :: a', y :: b' => f x y :: zip_with f a' b'
  | _, _ => []
  end.

(** A unary elementwise operation, and a scalar broadcast against an array. *)
Definition mmap (f : R -> R) (A : matrix) : matrix := map (map f) A.

(** A binary elementwise operation on two arrays of one shape. *)
Definition mmap2 (f : R -> R -> R) (A B : matrix) : matrix :=
  zip_with (zip_with f) A B.

Declare Scope mat_scope.
Delimit Scope mat_scope with mat.

Notation "A .+ B" := (mmap2 Rplus A B) (at level 50, left associativity) : mat_scope.
Notation "A .- B" := (mmap2 Rminus A B) (at level 50, left associativity) : mat_scope.
Notation "A .* B" := (mmap2 Rmult A B) (at level 40, left associativity) : mat_scope.
Notation "A ./ B" := (mmap2 Rdiv A B) (at level 40, left associativity) : mat_scope.
(** array (op) scalar *)
Notation "A :* c" := (mmap (fun x => x * c) A) (at level 40, left associativity) : mat_scope.
Notation "A :/ c" := (mmap (fun x => x / c) A) (at level 40, left associativity) : mat_scope.
Notation "A :+ c" := (mmap (fun x => x + c) A) (at level 50, left associativity) : mat_scope.
(** scalar (op) array *)
Notation "c *: A" := (mmap (fun x => c * x) A) (at level 40, left associativity) : mat_scope.
Notation "c /: A" := (mmap (fun x => c / x) A) (at level 40, left associativity) : mat_scope.
Notation "c +: A" := (mmap (fun x => c + x) A) (at level 50, left associativity) : mat_scope.

Open Scope mat_scope.

(** [A**2] *)
Definition msq (A : matrix) : matrix := mmap (fun x => x ^ 2) A.
Definition np_sqrt (A : matrix) : matrix := mmap sqrt A.
Definition np_abs (A : matrix) : matrix := mmap Rabs A.
Definition np_maximum (A B : matrix) : matrix := mmap2 Rmax A B.

(** The two axes of a two-dimensional array. *)
Inductive axis : Type := Axis0 | Axis1.

Definition np_roll (f : matrix) (shift : Z) (ax : axis) : matrix :=
  match ax with
  | Axis0 => roll shift f
  | Axis1 => map (roll shift) f
  end.

(** Minimum and maximum of a list; [None] on the empty list, where
    [np.min] raises [ValueError]. *)
Fixpoint list_min (l : list R) : option R :=
  match l with
  | [] => None
  | x :: l' =>
      match list_min l' with
      | None => Some x
      | Some m => Some (Rmin x m)
      end
  end.

Fixpoint list_max (l : list R) : option R :=
  match l with
  | [] => None
  | x :: l' =>
      match list_max l' with
      | None => Some x
      | Some m => Some (Rmax x m)
      end
  end.

(** [np.min(A)] and [np.max(A)]: over all entries of the array. *)
Definition np_min (A : matrix) : option R := list_min (concat A).
Definition np_max (A : matrix) : option R := list_max (concat A).

Definition list_sum (l : list R) : R := fold_right Rplus 0 l.

(** [np.sum(A)]: the sum over all cells. *)
Definition np_sum (A : matrix) : R := list_sum (map list_sum A).

(* ================================================================= *)
(** ** The module-level constants and the numerical kernels *)

(** [R = -1], [L = 1]: the two roll directions. *)
Module Dir.
Definition R : Z := (-1)%Z.
Definition L : Z := 1%Z.
End Dir.

Definition aX : axis := Axis1.
Definition aY : axis := Axis0.

Definition conserved_variables (rho vx vy : matrix) (V : R)
  : matrix * matrix * matrix :=
  let m := rho :* V in
  let px := rho :* V .* vx in
  let py := rho :* V .* vy in
  (m, px, py).

Definition primitive_variables (m px py : matrix) (V : R)
  : matrix * matrix * matrix :=
  let rho := m :/ V in
  let vx := px ./ rho :/ V in
  let vy := py ./ rho :/ V in
  (rho, vx, vy).

Definition grad (f : matrix) (dx : R) : matrix * matrix :=
  let f_dx := (np_roll f Dir.R aX .- np_roll f Dir.L aX) :/ (2 * dx) in
  let f_dy := (np_roll f Dir.R aY .- np_roll f Dir.L aY) :/ (2 * dx) in
  (f_dx, f_dy).

Definition extrapolate (f f_dx f_dy : matrix) (dx : R)
  : matrix * matrix * matrix * matrix :=
  let f_XL := f .- f_dx :* dx :/ 2 in
  let f_XL := np_roll f_XL Dir.R aX in
  let f_XR := f .+ f_dx :* dx :/ 2 in
  let f_YL := f .- f_dy :* dx :/ 2 in
  let f_YL := np_roll f_YL Dir.R aY in
  let f_YR := f .+ f_dy :* dx :/ 2 in
  (f_XL, f_XR, f_YL, f_YR).

Definition apply_flux (F flux_F_X flux_F_Y : matrix) (dx dt : R) : matrix :=
  let F := F .+ (- dt * dx) *: flux_F_X in
  let F := F .+ (dt * dx) *: np_roll flux_F_X Dir.L aX in
  let F := F .+ (- dt * dx) *: flux_F_Y in
  let F := F .+ (dt * dx) *: np_roll flux_F_Y Dir.L aY in
  F.

Definition get_flux (rho_L rho_R vx_L vx_R vy_L vy_R : matrix)
  : matrix * matrix * matrix :=
  (* compute star (averaged) states *)
  let rho_star := 0.5 *: (rho_L .+ rho_R) in
  let momx_star := 0.5 *: (rho_L .* vx_L .+ rho_R .* vx_R) in
  let momy_star := 0.5 *: (rho_L .* vy_L .+ rho_R .* vy_R) in
  let P_star := rho_star in
  (* compute fluxes (local Lax-Friedrichs/Rusanov) *)
  let flux_Mass := momx_star in
  let flux_Momx := msq momx_star ./ rho_star .+ P_star in
  let flux_Momy := momx_star .* momy_star ./ rho_star in
  (* find wavespeeds *)
  let C_L := 1 +: np_abs vx_L in
  let C_R := 1 +: np_abs vx_R in
  let C := np_maximum C_L C_R in
  (* add stabilizing diffusive term *)
  let flux_Mass := flux_Mass .- C :* 0.5 .* (rho_L .- rho_R) in
  let flux_Momx := flux_Momx .- C :* 0.5 .* (rho_L .* vx_L .- rho_R .* vx_R) in
  let flux_Momy := flux_Momy .- C :* 0.5 .* (rho_L .* vy_L .- rho_R .* vy_R) in
  (flux_Mass, flux_Momx, flux_Momy).

(* ================================================================= *)
(** ** Python exceptions *)

Inductive exn : Type :=
| ZeroDivisionError   (* a Python float divided by a zero Python number *)
| ValueError.         (* numpy: reduction of an empty array, negative sample count *)

Inductive result (X : Type) : Type :=
| Ok (x : X)
| Raise (e : exn).
Arguments Ok {X} x.
Arguments Raise {X} e.

Definition bind {X Y : Type} (r : result X) (k : X -> result Y) : result Y :=
  match r with
  | Ok x => k x
  | Raise e => Raise e
  end.

Notation "x <- r ;; k" := (bind r (fun x => k))
  (at level 61, r at next level, right associativity).

Definition of_option {X : Type} (e : exn) (o : option X) : result X :=
  match o with
  | Some x => Ok x
  | None => Raise e
  end.

(* ================================================================= *)
(** ** The simulation: parameters, state, one pass of the main loop *)

(** The block [# Simulation parameters] and [# Mesh] of [main]; the script
    fixes them to the values of [main_params] below. *)
Record Params : Type := mkParams {
  N : Z;               (* resolution *)
  courant_fac : R;     (* Courant factor *)
  tEnd : R;            (* time at which simulation ends *)
  Nout : Z;            (* number of frames to draw *)
  Lbox : R             (* box size *)
}.

Definition dx (p : Params) : R := Lbox p / IZR (N p).
Definition vol (p : Params) : R := dx p ^ 2.

(** The variables that the loop carries from one pass to the next. *)
Record State : Type := mkState {
  Mass : matrix;
  Momx : matrix;
  Momy : matrix;
  t : R;
  outputCount : Z
}.

(** What one [plotThisTurn] pass hands to the plotting code: the density
    field, drawn at the (already advanced) time [t]. *)
Record Frame : Type := mkFrame {
  frame_time : R;
  plot_field : matrix
}.

(** [outputCount*tEnd/Nout] *)
Definition target (p : Params) (k : Z) : R := IZR k * tEnd p / IZR (Nout p).

(** [courant_fac * np.min( dx / (1 + np.sqrt(vx**2+vy**2)) )] *)
Definition cfl_dt (p : Params) (vx vy : matrix) : result R :=
  m <- of_option ValueError (np_min (dx p /: (1 +: np_sqrt (msq vx .+ msq vy)))) ;;
  Ok (courant_fac p * m).

(** Lines 192-196: the time step and [plotThisTurn]. *)
Definition get_time_step (p : Params) (t : R) (outputCount : Z) (vx vy : matrix)
  : result (R * bool) :=
  dt <- cfl_dt p vx vy ;;
  if Rgt_dec (t + dt) (target p outputCount)
  then Ok (target p outputCount - t, true)
  else Ok (dt, false).

Record Fluxes : Type := mkFluxes {
  flux_Mass_X : matrix;
  flux_Momx_X : matrix;
  flux_Momy_X : matrix;
  flux_Mass_Y : matrix;
  flux_Momx_Y : matrix;
  flux_Momy_Y : matrix
}.

(** Lines 198-217: gradients, half-step predictor, face extrapolation and
    the two Riemann solves. *)
Definition compute_fluxes (rho vx vy : matrix) (dx dt : R) : Fluxes :=
  (* calculate gradients *)
  let '(rho_dx, rho_dy) := grad rho dx in
  let '(vx_dx, vx_dy) := grad vx dx in
  let '(vy_dx, vy_dy) := grad vy dx in
  let P_dx := rho_dx in
  let P_dy := rho_dy in
  (* extrapolate half-step in time *)
  let rho_prime :=
    rho .- (0.5 * dt) *: (vx .* rho_dx .+ rho .* vx_dx .+ vy .* rho_dy .+ rho .* vy_dy) in
  let vx_prime :=
    vx .- (0.5 * dt) *: (vx .* vx_dx .+ vy .* vx_dy .+ (1 /: rho) .* P_dx) in
  let vy_prime :=
    vy .- (0.5 * dt) *: (vx .* vy_dx .+ vy .* vy_dy .+ (1 /: rho) .* P_dy) in
  (* extrapolate in space to face centers *)
  let '(rho_XL, rho_XR, rho_YL, rho_YR) := extrapolate rho_prime rho_dx rho_dy dx in
  let '(vx_XL, vx_XR, vx_YL, vx_YR) := extrapolate vx_prime vx_dx vx_dy dx in
  let '(vy_XL, vy_XR, vy_YL, vy_YR) := extrapolate vy_prime vy_dx vy_dy dx in
  (* compute fluxes (local Lax-Friedrichs/Rusanov) *)
  let '(flux_Mass_X, flux_Momx_X, flux_Momy_X) :=
    get_flux rho_XL rho_XR vx_XL vx_XR vy_XL vy_XR in
  let '(flux_Mass_Y, flux_Momy_Y, flux_Momx_Y) :=
    get_flux rho_YL rho_YR vy_YL vy_YR vx_YL vx_YR in
  mkFluxes flux_Mass_X flux_Momx_X flux_Momy_X flux_Mass_Y flux_Momx_Y flux_Momy_Y.

(** One pass of [while t < tEnd]: the new loop variables and, on a
    [plotThisTurn] pass, the frame that is drawn. *)
Definition body (p : Params) (s : State) : result (State * option Frame) :=
  (* get Primitive variables *)
  let '(rho, vx, vy) := primitive_variables (Mass s) (Momx s) (Momy s) (vol p) in
  (* get time step (CFL) = dx / max signal speed *)
  step <- get_time_step p (t s) (outputCount s) vx vy ;;
  let '(dt, plotThisTurn) := step in
  let fl := compute_fluxes rho vx vy (dx p) dt in
  (* update solution *)
  let Mass' := apply_flux (Mass s) (flux_Mass_X fl) (flux_Mass_Y fl) (dx p) dt in
  let Momx' := apply_flux (Momx s) (flux_Momx_X fl) (flux_Momx_Y fl) (dx p) dt in
  let Momy' := apply_flux (Momy s) (flux_Momy_X fl) (flux_Momy_Y fl) (dx p) dt in
  (* update time *)
  let t' := t s + dt in
  (* plot in real time *)
  if plotThisTurn
  then Ok (mkState Mass' Momx' Momy' t' (outputCount s + 1),
           Some (mkFrame t' (1 *: rho)))
  else Ok (mkState Mass' Momx' Momy' t' (outputCount s), None).

Definition emit (fr : option Frame) (frs : list Frame) : list Frame :=
  match fr with
  | Some f => f :: frs
  | None => frs
  end.

(** At most [fuel] passes of [while t < tEnd]: the loop variables reached
    and the frames drawn on the way, in order. *)
Fixpoint run (p : Params) (fuel : nat) (s : State) : result (State * list Frame) :=
  match fuel with
  | O => Ok (s, [])
  | S fuel' =>
      if Rlt_dec (t s) (tEnd p) then
        r <- body p s ;;
        r' <- run p fuel' (fst r) ;;
        Ok (fst r', emit (snd r) (snd r'))
      else Ok (s, [])
  end.

(** The loop has left [while t < tEnd]. *)
Definition finished (p : Params) (s : State) : Prop := ~ t s < tEnd p.

(* ================================================================= *)
(** ** Set-up of the run: mesh and initial conditions *)

(** [np.linspace(start, stop, num)]: [arange(0, num) * step + start] with
    [step = (stop - start) / (num - 1)]; a negative [num] is refused. *)
Definition np_linspace (start stop : R) (num : Z) : result (list R) :=
  if (num <? 0)%Z then Raise ValueError
  else Ok (map (fun i => INR i * ((stop - start) / (IZR num - 1)) + start)
               (seq 0 (Z.to_nat num))).

(** [np.meshgrid(x, y)] with the default ['xy'] indexing. *)
Definition np_meshgrid (x y : list R) : matrix * matrix :=
  (repeat x (length y), map (fun yi => repeat yi (length x)) y).

Definition np_sin (A : matrix) : matrix := mmap sin A.
Definition np_cos (A : matrix) : matrix := mmap cos A.

(** Lines 164-177 and the initial values of [t] and [outputCount].  [Lbox]
    is a Python float and [N] a Python int, so [Lbox / N] raises on [N = 0]. *)
Definition setup (p : Params) : result State :=
  if (N p =? 0)%Z then Raise ZeroDivisionError
  else
    let dx := Lbox p / IZR (N p) in
    let vol := dx ^ 2 in
    xlin <- np_linspace (0.5 * dx) (Lbox p - 0.5 * dx) (N p) ;;
    let '(X, Y) := np_meshgrid xlin xlin in
    (* Generate Initial Conditions *)
    let rho := 0 *: X :+ 1 in
    let vx := 0.5 *: np_sin ((2 * PI) *: Y) in
    let vy := 0.1 *: np_sin ((4 * PI) *: X) .* msq (np_cos ((2 * PI) *: Y)) in
    (* Get conserved variables *)
    let '(Mass, Momx, Momy) := conserved_variables rho vx vy vol in
    Ok (mkState Mass Momx Momy 0 1).

(** The values that the script assigns. *)
Definition main_params : Params :=
  mkParams 100 0.5 (1 / sqrt 3) 100 1.

Definition simulate (p : Params) (fuel : nat) : result (State * list Frame) :=
  s <- setup p ;; run p fuel s.

Definition main (fuel : nat) : result (State * list Frame) :=
  simulate main_params fuel.

(* ================================================================= *)
(** ** Vocabulary of the statements *)

(** Every entry of the array satisfies [P]. *)
Definition all_cells (P : R -> Prop) (A : matrix) : Prop := Forall (Forall P) A.

(** The periodic neighbour of index [i] at offset [d] on an axis of [n]
    cells: [(i + d) mod n]. *)
Definition neighbor (i : nat) (d : Z) (n : nat) : nat :=
  Z.to_nat ((Z.of_nat i + d) mod Z.of_nat n).

(** The three conserved fields are [n] by [m] arrays. *)
Definition wf_state (n m : nat) (s : State) : Prop :=
  shape n m (Mass s) /\ shape n m (Momx s) /\ shape n m (Momy s).

(** The Rusanov flux of the specification (section 4.4), written from its
    wording.  One interface carries a left and a right density, normal
    velocity [vn] and tangential velocity [vt]. *)
Record Interface : Type := mkInterface {
  rhoL : R; rhoR : R;
  vnL : R; vnR : R;
  vtL : R; vtR : R
}.

Definition rho_star (s : Interface) : R := 0.5 * (rhoL s + rhoR s).
Definition momn_star (s : Interface) : R :=
  0.5 * (rhoL s * vnL s + rhoR s * vnR s).
Definition momt_star (s : Interface) : R :=
  0.5 * (rhoL s * vtL s + rhoR s * vtR s).
Definition P_star (s : Interface) : R := rho_star s.
Definition signal_speed (s : Interface) : R :=
  Rmax (1 + Rabs (vnL s)) (1 + Rabs (vnR s)).

Definition rusanov_mass (s : Interface) : R :=
  momn_star s - signal_speed s * 0.5 * (rhoL s - rhoR s).
Definition rusanov_momn (s : Interface) : R :=
  momn_star s ^ 2 / rho_star s + P_star s
  - signal_speed s * 0.5 * (rhoL s * vnL s - rhoR s * vnR s).
Definition rusanov_momt (s : Interface) : R :=
  momn_star s * momt_star s / rho_star s
  - signal_speed s * 0.5 * (rhoL s * vtL s - rhoR s * vtR s).

(** The interface at cell [(i, j)] of six face arrays. *)
Definition interface_at (rho_L rho_R vn_L vn_R vt_L vt_R : matrix) (i j : nat)
  : Interface :=
  mkInterface (cell rho_L i j) (cell rho_R i j)
              (cell vn_L i j) (cell vn_R i j)
              (cell vt_L i j) (cell vt_R i j).

(** The six flux arrays are [n] by [m] arrays. *)
Definition wf_fluxes (n m : nat) (fl : Fluxes) : Prop :=
  shape n m (flux_Mass_X fl) /\ shape n m (flux_Momx_X fl) /\
  shape n m (flux_Momy_X fl) /\ shape n m (flux_Mass_Y fl) /\
  shape n m (flux_Momx_Y fl) /\ shape n m (flux_Momy_Y fl).

(** The primitive fields that a pass of the loop computes from its state. *)
Definition primitives (p : Params) (s : State) : matrix * matrix * matrix :=
  primitive_variables (Mass s) (Momx s) (Momy s) (vol p).
Definition rho_of (p : Params) (s : State) : matrix := fst (fst (primitives p s)).
Definition vx_of (p : Params) (s : State) : matrix := snd (fst (primitives p s)).
Definition vy_of (p : Params) (s : State) : matrix := snd (primitives p s).

(** The fluxes of a pass that runs with time step [dt]. *)
Definition fluxes_of (p : Params) (s : State) (dt : R) : Fluxes :=
  compute_fluxes (rho_of p s) (vx_of p s) (vy_of p s) (dx p) dt.

(** The part of a pass that follows the choice of [dt] and [plotThisTurn]. *)
Definition advance (p : Params) (s : State) (dt : R) (plotThisTurn : bool)
  : State * option Frame :=
  let fl := fluxes_of p s dt in
  (mkState
     (apply_flux (Mass s) (flux_Mass_X fl) (flux_Mass_Y fl) (dx p) dt)
     (apply_flux (Momx s) (flux_Momx_X fl) (flux_Momx_Y fl) (dx p) dt)
     (apply_flux (Momy s) (flux_Momy_X fl) (flux_Momy_Y fl) (dx p) dt)
     (t s + dt)
     (if plotThisTurn then outputCount s + 1 else outputCount s)%Z,
   if plotThisTurn then Some (mkFrame (t s + dt) (1 *: rho_of p s)) else None).

(** [sqrt(vx^2 + vy^2)] in every cell, and its maximum over all cells. *)
Definition speed (vx vy : matrix) : matrix := np_sqrt (msq vx .+ msq vy).
Definition max_speed (vx vy : matrix) : option R := np_max (speed vx vy).

(** The steady state of the specification: density 1 and velocity 0 in every
    cell of an [n] by [m] grid, as conserved variables, at loop time [t0]
    and output count [k]. *)
Definition uniform_state (p : Params) (n m : nat) (t0 : R) (k : Z) : State :=
  let '(mass, px, py) :=
    conserved_variables (const_matrix n m 1) (const_matrix n m 0)
                        (const_matrix n m 0) (vol p) in
  mkState mass px py t0 k.

(** The twelve face arrays of a pass (lines 198-213): gradients, half-step
    predictor and extrapolation to the faces. *)
Record Faces : Type := mkFaces {
  rho_XL : matrix; rho_XR : matrix; rho_YL : matrix; rho_YR : matrix;
  vx_XL : matrix; vx_XR : matrix; vx_YL : matrix; vx_YR : matrix;
  vy_XL : matrix; vy_XR : matrix; vy_YL : matrix; vy_YR : matrix
}.

Definition face_states (rho vx vy : matrix) (dx dt : R) : Faces :=
  let '(rho_dx, rho_dy) := grad rho dx in
  let '(vx_dx, vx_dy) := grad vx dx in
  let '(vy_dx, vy_dy) := grad vy dx in
  let P_dx := rho_dx in
  let P_dy := rho_dy in
  let rho_prime :=
    rho .- (0.5 * dt) *: (vx .* rho_dx .+ rho .* vx_dx .+ vy .* rho_dy .+ rho .* vy_dy) in
  let vx_prime :=
    vx .- (0.5 * dt) *: (vx .* vx_dx .+ vy .* vx_dy .+ (1 /: rho) .* P_dx) in
  let vy_prime :=
    vy .- (0.5 * dt) *: (vx .* vy_dx .+ vy .* vy_dy .+ (1 /: rho) .* P_dy) in
  let '(rho_XL, rho_XR, rho_YL, rho_YR) := extrapolate rho_prime rho_dx rho_dy dx in
  let '(vx_XL, vx_XR, vx_YL, vx_YR) := extrapolate vx_prime vx_dx vx_dy dx in
  let '(vy_XL, vy_XR, vy_YL, vy_YR) := extrapolate vy_prime vy_dx vy_dy dx in
  mkFaces rho_XL rho_XR rho_YL rho_YR vx_XL vx_XR vx_YL vx_YR
          vy_XL vy_XR vy_YL vy_YR.

Definition wf_faces (n m : nat) (fs : Faces) : Prop :=
  (shape n m (rho_XL fs) /\ shape n m (rho_XR fs) /\
   shape n m (rho_YL fs) /\ shape n m (rho_YR fs)) /\
  (shape n m (vx_XL fs) /\ shape n m (vx_XR fs) /\
   shape n m (vx_YL fs) /\ shape n m (vx_YR fs)) /\
  (shape n m (vy_XL fs) /\ shape n m (vy_XR fs) /\
   shape n m (vy_YL fs) /\ shape n m (vy_YR fs)).

(** Cyclic translation of the grid by [k] cells along [ax]. *)
Abbreviation shift k ax A := (np_roll A k ax) (only parsing).

Definition shift3 (k : Z) (ax : axis) (x : matrix * matrix * matrix)
  : matrix * matrix * matrix :=
  let '(a, b, c) := x in (shift k ax a, shift k ax b, shift k ax c).

Definition shift_state (k : Z) (ax : axis) (s : State) : State :=
  mkState (shift k ax (Mass s)) (shift k ax (Momx s)) (shift k ax (Momy s))
          (t s) (outputCount s).

Definition shift_frame (k : Z) (ax : axis) (fr : Frame) : Frame :=
  mkFrame (frame_time fr) (shift k ax (plot_field fr)).

Definition shift_fluxes (k : Z) (ax : axis) (fl : Fluxes) : Fluxes :=
  mkFluxes (shift k ax (flux_Mass_X fl)) (shift k ax (flux_Momx_X fl))
           (shift k ax (flux_Momy_X fl)) (shift k ax (flux_Mass_Y fl))
           (shift k ax (flux_Momx_Y fl)) (shift k ax (flux_Momy_Y fl)).

(** A run in which a CFL step lands exactly on every output time:
    [N = 2], [courant_fac = 0.5], [tEnd = 1], [Nout = 4], [Lbox = 1]. *)
Definition tie_params : Params := mkParams 2 0.5 1 4 1.

(** The configurations that the specification (section 7) wants refused,
    written from its wording. *)
Definition invalid_config (p : Params) : Prop :=
  (N p <= 0)%Z \/ Lbox p <= 0 \/ ~ (0 < courant_fac p <= 1) \/
  tEnd p <= 0 \/ (Nout p <= 0)%Z.

(** The set-up stops with an exception. *)
Definition rejected {X : Type} (r : result X) : Prop := exists e, r = Raise e.

(** The parameters of the script with the Courant factor set to 2. *)
Definition courant_2_params : Params := mkParams 100 2 (1 / sqrt 3) 100 1.

(** The times at which the frames of a run were drawn, and the output
    times [k*tEnd/Nout], [(k+1)*tEnd/Nout], ... ([j] of them). *)
Definition frame_times (frs : list Frame) : list R := map frame_time frs.



(** The interface seen from the other side: left and right states change
    places and the normal velocity changes sign. *)
Definition mirror (s : Interface) : Interface :=
  mkInterface (rhoR s) (rhoL s) (- vnR s) (- vnL s) (vtR s) (vtL s).

(** [-A] *)
Definition mneg (A : matrix) : matrix := mmap Ropp A.


(** [A.T]: the transpose of an array with [m] columns. *)
Definition transpose (m : nat) (A : matrix) : matrix :=
  map (fun j => map (fun row => nth j row 0) A) (seq 0 m).

(** The state with the two axes exchanged: every field transposed, and the
    x- and y-momentum changing places. *)
Definition swap_axes (m : nat) (s : State) : State :=
  mkState (transpose m (Mass s)) (transpose m (Momy s)) (transpose m (Momx s))
          (t s) (outputCount s).

Definition transpose_frame (m : nat) (fr : Frame) : Frame :=
  mkFrame (frame_time fr) (transpose m (plot_field fr)).

Definition swap_fluxes (m : nat) (fl : Fluxes) : Fluxes :=
  mkFluxes (transpose m (flux_Mass_Y fl)) (transpose m (flux_Momy_Y fl))
           (transpose m (flux_Momx_Y fl)) (transpose m (flux_Mass_X fl))
           (transpose m (flux_Momy_X fl)) (transpose m (flux_Momx_X fl)).

(* ================================================================= *)
(** * Properties *)

(* ================================================================= *)
(** ** Rotations *)

Section RotationFacts.
Context {A : Type}.
Implicit Types l : list A.

Lemma rotl_rotr l : rotl (rotr l) = l.
Proof.
  unfold rotr. rewrite <- (rev_involutive l) at 2.
  destruct (rev l) as [|x r]; [reflexivity|].
  simpl. rewrite rev_app_distr. reflexivity.
Qed.

Lemma rotr_rotl l : rotr (rotl l) = l.
Proof.
  unfold rotr. destruct l as [|x l]; [reflexivity|].
  simpl. rewrite rev_app_distr. simpl.
  rewrite rev_app_distr, rev_involutive. reflexivity.
Qed.

Lemma rotr_cons_last l x : rotr (l ++ [x]) = x :: l.
Proof.
  unfold rotr. rewrite rev_app_distr. simpl.
  rewrite rev_app_distr, rev_involutive. reflexivity.
Qed.

Lemma length_rotl l : length (rotl l) = length l.
Proof.
  destruct l; simpl; [reflexivity|].
  rewrite length_app. simpl. lia.
Qed.

Lemma length_rotr l : length (rotr l) = length l.
Proof. unfold rotr. now rewrite length_rev, length_rotl, length_rev. Qed.

Lemma length_iter (f : list A -> list A) k l :
  (forall l', length (f l') = length l') -> length (iter f k l) = length l.
Proof. intros Hf. induction k; simpl; [reflexivity|]. now rewrite Hf. Qed.

Lemma length_roll k l : length (roll k l) = length l.
Proof.
  unfold roll. destruct (0 <=? k)%Z;
    apply length_iter; auto using length_rotl, length_rotr.
Qed.

Lemma rotl_perm l : Permutation (rotl l) l.
Proof.
  destruct l as [|x l]; simpl; [constructor|].
  symmetry. apply Permutation_cons_append.
Qed.

Lemma rotr_perm l : Permutation (rotr l) l.
Proof.
  unfold rotr. rewrite <- Permutation_rev, rotl_perm, <- Permutation_rev.
  reflexivity.
Qed.

Lemma roll_perm k l : Permutation (roll k l) l.
Proof.
  unfold roll. destruct (0 <=? k)%Z.
  - induction (Z.to_nat k); simpl; [reflexivity|].
    now rewrite rotr_perm.
  - induction (Z.to_nat (- k)); simpl; [reflexivity|].
    now rewrite rotl_perm.
Qed.

(** Two rotations of one list commute, whatever their directions. *)
Lemma iter_comm (f g : list A -> list A) j k l :
  (forall l', f (g l') = g (f l')) ->
  iter f j (iter g k l) = iter g k (iter f j l).
Proof.
  intros Hfg.
  assert (H1 : forall k l', f (iter g k l') = iter g k (f l')).
  { intros k'. induction k'; intros l'; simpl; [reflexivity|].
    now rewrite Hfg, IHk'. }
  induction j; simpl; [reflexivity|].
  now rewrite IHj, H1.
Qed.

Lemma roll_comm j k l : roll j (roll k l) = roll k (roll j l).
Proof.
  unfold roll.
  destruct (0 <=? j)%Z, (0 <=? k)%Z; apply iter_comm; intros l';
    now rewrite ?rotl_rotr, ?rotr_rotl.
Qed.

Lemma nth_rotl l i d :
  (i < length l)%nat ->
  nth i (rotl l) d = nth (S i mod length l) l d.
Proof.
  destruct l as [|x l]; simpl length; [lia|]. intros Hi. simpl rotl.
  destruct (Nat.eq_dec i (length l)) as [->|Hne].
  - rewrite Nat.Div0.mod_same.
    rewrite app_nth2 by lia. now rewrite Nat.sub_diag.
  - rewrite Nat.mod_small by lia.
    rewrite app_nth1 by lia. reflexivity.
Qed.

Lemma nth_rotr l i d :
  (i < length l)%nat ->
  nth i (rotr l) d = nth ((i + length l - 1) mod length l) l d.
Proof.
  intros Hi.
  destruct (rev l) as [|x r] eqn:Hr.
  - apply (f_equal (@length A)) in Hr. rewrite length_rev in Hr.
    simpl in Hr. lia.
  - assert (Hl : l = rev r ++ [x]).
    { rewrite <- (rev_involutive l), Hr. reflexivity. }
    subst l. rewrite rotr_cons_last.
    rewrite length_app in *. simpl length in *.
    destruct i as [|i].
    + simpl. rewrite Nat.mod_small by lia.
      rewrite app_nth2 by lia.
      match goal with
      | |- _ = nth ?k _ _ => replace k with 0%nat by lia
      end.
      reflexivity.
    + simpl nth at 1.
      replace ((S i + (length (rev r) + 1) - 1) mod (length (rev r) + 1))%nat
        with i.
      * rewrite app_nth1 by lia. reflexivity.
      * replace (S i + (length (rev r) + 1) - 1)%nat
          with (i + 1 * (length (rev r) + 1))%nat by lia.
        rewrite Nat.Div0.mod_add. rewrite Nat.mod_small by lia. reflexivity.
Qed.

End RotationFacts.

Lemma map_rotl {A B : Type} (f : A -> B) l : map f (rotl l) = rotl (map f l).
Proof. destruct l; simpl; [reflexivity|]. now rewrite map_app. Qed.

Lemma map_rotr {A B : Type} (f : A -> B) l : map f (rotr l) = rotr (map f l).
Proof. unfold rotr. now rewrite map_rev, map_rotl, map_rev. Qed.

Lemma map_roll {A B : Type} (f : A -> B) k l :
  map f (roll k l) = roll k (map f l).
Proof.
  unfold roll. destruct (0 <=? k)%Z.
  - induction (Z.to_nat k); simpl; [reflexivity|]. now rewrite map_rotr, IHn.
  - induction (Z.to_nat (- k)); simpl; [reflexivity|]. now rewrite map_rotl, IHn.
Qed.

Lemma roll_R {A : Type} (l : list A) : roll Dir.R l = rotl l.
Proof. reflexivity. Qed.

Lemma roll_L {A : Type} (l : list A) : roll Dir.L l = rotr l.
Proof. reflexivity. Qed.

(* ================================================================= *)
(** ** Pairing up two lists *)

Section ZipWith.
Context {X Y Z : Type} (f : X -> Y -> Z).

Lemma length_zip_with a b :
  length a = length b -> length (zip_with f a b) = length a.
Proof.
  revert b. induction a as [|x a IH]; intros [|y b] H; simpl in *;
    try discriminate; auto.
Qed.

Lemma zip_with_app a a' b b' :
  length a = length b ->
  zip_with f (a ++ a') (b ++ b') = zip_with f a b ++ zip_with f a' b'.
Proof.
  revert b. induction a as [|x a IH]; intros [|y b] H; simpl in *;
    try discriminate; [reflexivity|].
  f_equal. apply IH. lia.
Qed.

Lemma zip_with_rev a b :
  length a = length b ->
  rev (zip_with f a b) = zip_with f (rev a) (rev b).
Proof.
  revert b. induction a as [|x a IH]; intros [|y b] H; simpl in *;
    try discriminate; [reflexivity|].
  rewrite zip_with_app by (rewrite !length_rev; lia).
  simpl. rewrite IH by lia. reflexivity.
Qed.

Lemma zip_with_rotl a b :
  length a = length b ->
  rotl (zip_with f a b) = zip_with f (rotl a) (rotl b).
Proof.
  destruct a as [|x a], b as [|y b]; simpl; intros H; try discriminate;
    [reflexivity|].
  rewrite zip_with_app by lia. reflexivity.
Qed.

Lemma zip_with_rotr a b :
  length a = length b ->
  rotr (zip_with f a b) = zip_with f (rotr a) (rotr b).
Proof.
  intros H. unfold rotr.
  rewrite <- zip_with_rev by (now rewrite !length_rotl, !length_rev).
  rewrite <- zip_with_rotl by (now rewrite !length_rev).
  now rewrite <- zip_with_rev.
Qed.

Lemma zip_with_roll k a b :
  length a = length b ->
  roll k (zip_with f a b) = zip_with f (roll k a) (roll k b).
Proof.
  intros H. unfold roll. destruct (0 <=? k)%Z.
  - induction (Z.to_nat k) as [|j IH]; simpl; [reflexivity|].
    rewrite IH. apply zip_with_rotr.
    rewrite !length_iter; auto using length_rotr.
  - induction (Z.to_nat (- k)) as [|j IH]; simpl; [reflexivity|].
    rewrite IH. apply zip_with_rotl.
    rewrite !length_iter; auto using length_rotl.
Qed.

Lemma nth_zip_with a b i dx dy dz :
  (i < length a)%nat -> (i < length b)%nat ->
  nth i (zip_with f a b) dz = f (nth i a dx) (nth i b dy).
Proof.
  revert b i. induction a as [|x a IH]; intros [|y b] [|i] Ha Hb;
    simpl in *; try lia; [reflexivity|].
  apply IH; lia.
Qed.

End ZipWith.

Lemma zip_with_repeat {X Y Z : Type} (f : X -> Y -> Z) x y n :
  zip_with f (repeat x n) (repeat y n) = repeat (f x y) n.
Proof. induction n; simpl; congruence. Qed.

Lemma rotl_repeat {X : Type} (x : X) n : rotl (repeat x n) = repeat x n.
Proof.
  destruct n; simpl; [reflexivity|].
  now rewrite <- repeat_cons.
Qed.

Lemma rev_repeat {X : Type} (x : X) n : rev (repeat x n) = repeat x n.
Proof.
  induction n; simpl; [reflexivity|].
  rewrite IHn. now rewrite <- repeat_cons.
Qed.

Lemma rotr_repeat {X : Type} (x : X) n : rotr (repeat x n) = repeat x n.
Proof. unfold rotr. now rewrite rev_repeat, rotl_repeat, rev_repeat. Qed.

Lemma roll_repeat {X : Type} k (x : X) n : roll k (repeat x n) = repeat x n.
Proof.
  unfold roll. destruct (0 <=? k)%Z.
  - induction (Z.to_nat k); simpl; [reflexivity|]. now rewrite IHn0, rotr_repeat.
  - induction (Z.to_nat (- k)); simpl; [reflexivity|]. now rewrite IHn0, rotl_repeat.
Qed.

(* ================================================================= *)
(** ** Shapes *)

Create HintDb shape.

Lemma shape_mmap f n m A : shape n m A -> shape n m (mmap f A).
Proof.
  intros [Hn Hm]. split; unfold mmap.
  - now rewrite length_map.
  - apply Forall_map. eapply Forall_impl; [|exact Hm].
    intros row Hr. now rewrite length_map.
Qed.

Lemma shape_mmap2 f n m A B :
  shape n m A -> shape n m B -> shape n m (mmap2 f A B).
Proof.
  unfold shape, mmap2. revert n B.
  induction A as [|a A IH]; intros n [|b B] [Hn HA] [Hn' HB]; simpl in *;
    subst; try discriminate; auto.
  inversion HA; inversion HB; subst.
  destruct (IH (length A) B) as [IH1 IH2]; auto.
  split; [now rewrite IH1|].
  constructor; auto. apply length_zip_with. congruence.
Qed.

Lemma Forall_roll {X : Type} (P : X -> Prop) k l :
  Forall P l -> Forall P (roll k l).
Proof.
  rewrite !Forall_forall. intros H x Hx. apply H.
  eapply Permutation_in; [apply roll_perm | exact Hx].
Qed.

Lemma shape_np_roll n m A k ax : shape n m A -> shape n m (np_roll A k ax).
Proof.
  intros [Hn Hm]. destruct ax; simpl; split.
  - now rewrite length_roll.
  - now apply Forall_roll.
  - now rewrite length_map.
  - apply Forall_map. eapply Forall_impl; [|exact Hm].
    intros row Hr. now rewrite length_roll.
Qed.

Lemma shape_const n m c : shape n m (const_matrix n m c).
Proof.
  split; unfold const_matrix.
  - apply repeat_length.
  - apply Forall_forall. intros row Hr. apply repeat_spec in Hr. subst.
    apply repeat_length.
Qed.

#[export] Hint Resolve shape_mmap shape_mmap2 shape_np_roll shape_const : shape.

Lemma shape_msq n m A : shape n m A -> shape n m (msq A).
Proof. apply shape_mmap. Qed.
Lemma shape_np_sqrt n m A : shape n m A -> shape n m (np_sqrt A).
Proof. apply shape_mmap. Qed.
Lemma shape_np_abs n m A : shape n m A -> shape n m (np_abs A).
Proof. apply shape_mmap. Qed.
Lemma shape_np_maximum n m A B :
  shape n m A -> shape n m B -> shape n m (np_maximum A B).
Proof. apply shape_mmap2. Qed.

#[export] Hint Resolve shape_msq shape_np_sqrt shape_np_abs shape_np_maximum : shape.

(** Shape of a term built from elementwise operations and rolls. *)
Ltac shapes :=
  repeat first
    [ assumption
    | apply shape_mmap2 | apply shape_mmap | apply shape_np_roll
    | apply shape_const ].

Ltac split_shapes :=
  repeat match goal with |- _ /\ _ => split end; shapes.

(* ================================================================= *)
(** ** Entries of elementwise results *)

Lemma cell_mmap f n m A i j :
  shape n m A -> (i < n)%nat -> (j < m)%nat ->
  cell (mmap f A) i j = f (cell A i j).
Proof.
  intros [Hn Hm] Hi Hj. unfold cell, mmap.
  rewrite (nth_indep _ [] (map f [])) by (rewrite length_map; lia).
  rewrite map_nth.
  assert (Hrow : length (nth i A []) = m).
  { rewrite Forall_forall in Hm. apply Hm. apply nth_In. lia. }
  rewrite (nth_indep _ 0 (f 0)) by (rewrite length_map; lia).
  apply map_nth.
Qed.

Lemma cell_mmap2 f n m A B i j :
  shape n m A -> shape n m B -> (i < n)%nat -> (j < m)%nat ->
  cell (mmap2 f A B) i j = f (cell A i j) (cell B i j).
Proof.
  intros [HnA HmA] [HnB HmB] Hi Hj. unfold cell, mmap2.
  rewrite (nth_zip_with _ A B i [] []) by lia.
  rewrite Forall_forall in HmA, HmB.
  apply nth_zip_with.
  - rewrite HmA; [lia | apply nth_In; lia].
  - rewrite HmB; [lia | apply nth_In; lia].
Qed.

Lemma cell_const n m c i j :
  (i < n)%nat -> (j < m)%nat -> cell (const_matrix n m c) i j = c.
Proof.
  intros Hi Hj. unfold cell, const_matrix.
  rewrite nth_repeat_lt by lia. now rewrite nth_repeat_lt by lia.
Qed.

(** Two arrays of one shape with the same entries are equal. *)
Lemma list_ext {X : Type} (d : X) (a b : list X) :
  length a = length b ->
  (forall i, (i < length a)%nat -> nth i a d = nth i b d) ->
  a = b.
Proof.
  revert b. induction a as [|x a IH]; intros [|y b] Hl H; simpl in *;
    try discriminate; [reflexivity|].
  f_equal.
  - apply (H 0%nat). lia.
  - apply IH; [lia|]. intros i Hi. apply (H (S i)). lia.
Qed.

Lemma shape_row n m A i : shape n m A -> (i < n)%nat -> length (nth i A []) = m.
Proof.
  intros [Hn Hm] Hi. rewrite Forall_forall in Hm. apply Hm, nth_In. lia.
Qed.

Lemma matrix_ext n m A B :
  shape n m A -> shape n m B ->
  (forall i j, (i < n)%nat -> (j < m)%nat -> cell A i j = cell B i j) ->
  A = B.
Proof.
  intros HA HB H.
  apply (list_ext []); [destruct HA, HB; congruence|].
  intros i Hi. assert (Hin : (i < n)%nat) by (destruct HA; lia).
  apply (list_ext 0).
  - now rewrite (shape_row n m A), (shape_row n m B).
  - intros j Hj. rewrite (shape_row n m A) in Hj by assumption.
    now apply H.
Qed.

Lemma all_cells_cell P n m A i j :
  shape n m A -> all_cells P A -> (i < n)%nat -> (j < m)%nat -> P (cell A i j).
Proof.
  intros HA Hall Hi Hj. unfold all_cells in Hall.
  rewrite Forall_forall in Hall.
  assert (Hrow : Forall P (nth i A [])).
  { apply Hall, nth_In. destruct HA. lia. }
  rewrite Forall_forall in Hrow. apply Hrow, nth_In.
  now rewrite (shape_row n m A).
Qed.

(** Rewrites an entry of an elementwise result into the operation on the
    entries of its arguments. *)
Ltac cells n m :=
  repeat first
    [ rewrite (cell_mmap2 _ n m) by shapes
    | rewrite (cell_mmap _ n m) by shapes ].

(* ================================================================= *)
(** ** Entries of a rolled array *)

Lemma neighbor_succ i n : (i < n)%nat -> neighbor i 1 n = (S i mod n)%nat.
Proof.
  intros Hi. unfold neighbor.
  replace (Z.of_nat i + 1)%Z with (Z.of_nat (S i)) by lia.
  rewrite <- Nat2Z.inj_mod. apply Nat2Z.id.
Qed.

Lemma neighbor_pred i n :
  (i < n)%nat -> neighbor i (-1) n = ((i + n - 1) mod n)%nat.
Proof.
  intros Hi. unfold neighbor.
  replace (Z.of_nat i + -1)%Z
    with (Z.of_nat (i + n - 1) + (-1) * Z.of_nat n)%Z by lia.
  rewrite Z_mod_plus_full.
  rewrite <- Nat2Z.inj_mod. apply Nat2Z.id.
Qed.

Lemma neighbor_lt i d n : (0 < n)%nat -> (neighbor i d n < n)%nat.
Proof.
  intros Hn. unfold neighbor.
  pose proof (Z.mod_pos_bound (Z.of_nat i + d) (Z.of_nat n)). lia.
Qed.

Lemma cell_roll_axis1 n m A i j (d : Z) :
  shape n m A -> (i < n)%nat -> (j < m)%nat -> (d = 1 \/ d = -1)%Z ->
  cell (np_roll A (- d) Axis1) i j = cell A i (neighbor j d m).
Proof.
  intros HA Hi Hj Hd. unfold cell. simpl np_roll.
  rewrite (nth_indep _ [] (roll (- d) [])) by (rewrite length_map; destruct HA; lia).
  rewrite map_nth.
  pose proof (shape_row n m A i HA Hi) as Hrow.
  destruct Hd as [-> | ->].
  - change (roll (- (1)) (nth i A [])) with (rotl (nth i A [])).
    rewrite nth_rotl by lia. now rewrite Hrow, neighbor_succ.
  - change (roll (- -1) (nth i A [])) with (rotr (nth i A [])).
    rewrite nth_rotr by lia. now rewrite Hrow, neighbor_pred.
Qed.

Lemma cell_roll_axis0 n m A i j (d : Z) :
  shape n m A -> (i < n)%nat -> (j < m)%nat -> (d = 1 \/ d = -1)%Z ->
  cell (np_roll A (- d) Axis0) i j = cell A (neighbor i d n) j.
Proof.
  intros HA Hi Hj Hd. unfold cell. simpl np_roll.
  destruct HA as [Hn _].
  destruct Hd as [-> | ->].
  - change (roll (- (1)) A) with (rotl A).
    rewrite nth_rotl by lia. now rewrite Hn, neighbor_succ.
  - change (roll (- -1) A) with (rotr A).
    rewrite nth_rotr by lia. now rewrite Hn, neighbor_pred.
Qed.

Lemma cell_roll_R_aX n m A i j :
  shape n m A -> (i < n)%nat -> (j < m)%nat ->
  cell (np_roll A Dir.R aX) i j = cell A i (neighbor j 1 m).
Proof. intros. apply (cell_roll_axis1 n m A i j 1); auto. Qed.

Lemma cell_roll_L_aX n m A i j :
  shape n m A -> (i < n)%nat -> (j < m)%nat ->
  cell (np_roll A Dir.L aX) i j = cell A i (neighbor j (-1) m).
Proof. intros. apply (cell_roll_axis1 n m A i j (-1)); auto. Qed.

Lemma cell_roll_R_aY n m A i j :
  shape n m A -> (i < n)%nat -> (j < m)%nat ->
  cell (np_roll A Dir.R aY) i j = cell A (neighbor i 1 n) j.
Proof. intros. apply (cell_roll_axis0 n m A i j 1); auto. Qed.

Lemma cell_roll_L_aY n m A i j :
  shape n m A -> (i < n)%nat -> (j < m)%nat ->
  cell (np_roll A Dir.L aY) i j = cell A (neighbor i (-1) n) j.
Proof. intros. apply (cell_roll_axis0 n m A i j (-1)); auto. Qed.

(* ================================================================= *)
(** ** Conserved and primitive variables *)

(** C5.  For density, velocity fields of one shape with the density
    positive in every cell, and a positive cell volume [V], converting to
    conserved variables and back returns the fields it started from. *)
Theorem primitive_of_conserved n m rho vx vy V :
  shape n m rho -> shape n m vx -> shape n m vy ->
  all_cells (fun x => 0 < x) rho -> 0 < V ->
  let '(mass, px, py) := conserved_variables rho vx vy V in
  primitive_variables mass px py V = (rho, vx, vy).
Proof.
  intros Hrho Hvx Hvy Hpos HV.
  unfold conserved_variables, primitive_variables.
  assert (Hcell : forall i j, (i < n)%nat -> (j < m)%nat -> 0 < cell rho i j).
  { intros i j Hi Hj.
    apply (all_cells_cell (fun x => 0 < x) n m rho i j); assumption. }
  f_equal; [f_equal|].
  - apply (matrix_ext n m); shapes.
    intros i j Hi Hj. cells n m. field. lra.
  - apply (matrix_ext n m); shapes.
    intros i j Hi Hj. cells n m. specialize (Hcell i j Hi Hj). field. lra.
  - apply (matrix_ext n m); shapes.
    intros i j Hi Hj. cells n m. specialize (Hcell i j Hi Hj). field. lra.
Qed.

Lemma shape_1x1 x : shape 1 1 [[x]].
Proof. split; [reflexivity | repeat constructor]. Qed.

Lemma primitive_of_conserved_witness :
  primitive_variables [[2 * 3]] [[2 * 3 * 5]] [[2 * 3 * 7]] 3
  = ([[2]], [[5]], [[7]]).
Proof.
  apply (primitive_of_conserved 1 1 [[2]] [[5]] [[7]] 3);
    try apply shape_1x1; try lra.
  repeat constructor. lra.
Defined.

(* ================================================================= *)
(** ** The Riemann solver *)

(** C6.  At every interface [(i, j)], the three arrays returned by
    [get_flux] hold the Rusanov fluxes of the specification, computed from
    the left and right states at that interface with the third and fourth
    arguments as normal velocity and the last two as tangential velocity. *)
Theorem get_flux_rusanov n m rho_L rho_R vx_L vx_R vy_L vy_R i j :
  shape n m rho_L -> shape n m rho_R ->
  shape n m vx_L -> shape n m vx_R ->
  shape n m vy_L -> shape n m vy_R ->
  (i < n)%nat -> (j < m)%nat ->
  let '(flux_Mass, flux_Momx, flux_Momy) :=
    get_flux rho_L rho_R vx_L vx_R vy_L vy_R in
  let face := interface_at rho_L rho_R vx_L vx_R vy_L vy_R i j in
  cell flux_Mass i j = rusanov_mass face /\
  cell flux_Momx i j = rusanov_momn face /\
  cell flux_Momy i j = rusanov_momt face.
Proof.
  intros H1 H2 H3 H4 H5 H6 Hi Hj.
  unfold get_flux, msq, np_abs, np_maximum. cbv zeta.
  unfold rusanov_mass, rusanov_momn, rusanov_momt, momn_star, momt_star,
    P_star, rho_star, signal_speed, interface_at. simpl.
  repeat split; cells n m; reflexivity.
Qed.

Lemma get_flux_rusanov_witness :
  let '(flux_Mass, flux_Momx, flux_Momy) :=
    get_flux [[1]] [[2]] [[3]] [[4]] [[5]] [[6]] in
  cell flux_Mass 0 0 = rusanov_mass (mkInterface 1 2 3 4 5 6) /\
  cell flux_Momx 0 0 = rusanov_momn (mkInterface 1 2 3 4 5 6) /\
  cell flux_Momy 0 0 = rusanov_momt (mkInterface 1 2 3 4 5 6).
Proof.
  apply (get_flux_rusanov 1 1 [[1]] [[2]] [[3]] [[4]] [[5]] [[6]] 0 0);
    try apply shape_1x1; lia.
Defined.

(* ================================================================= *)
(** ** Gradients *)

(** C9.  On an [n] by [m] field the gradient along x (the second index) at
    cell [(i, j)] is the periodic central difference of the neighbours
    [j+1] and [j-1] modulo [m], and the gradient along y (the first index)
    is the central difference of the neighbours [i+1] and [i-1] modulo [n];
    both are divided by [2*dx]. *)
Theorem grad_central_difference n m f dx i j :
  shape n m f -> (i < n)%nat -> (j < m)%nat ->
  let '(f_dx, f_dy) := grad f dx in
  cell f_dx i j
    = (cell f i (neighbor j 1 m) - cell f i (neighbor j (-1) m)) / (2 * dx) /\
  cell f_dy i j
    = (cell f (neighbor i 1 n) j - cell f (neighbor i (-1) n) j) / (2 * dx).
Proof.
  intros Hf Hi Hj. unfold grad. cbv zeta. split; cells n m.
  - now rewrite (cell_roll_R_aX n m), (cell_roll_L_aX n m).
  - now rewrite (cell_roll_R_aY n m), (cell_roll_L_aY n m).
Qed.

Lemma grad_central_difference_witness :
  let f := [[1; 2; 4]; [8; 16; 32]] in
  let '(f_dx, f_dy) := grad f 1 in
  cell f_dx 0 0 = (2 - 4) / (2 * 1) /\ cell f_dy 0 0 = (8 - 8) / (2 * 1).
Proof.
  apply (grad_central_difference 2 3 [[1; 2; 4]; [8; 16; 32]] 1 0 0);
    try lia.
  split; [reflexivity | repeat constructor].
Defined.

(* ================================================================= *)
(** ** Sums over all cells *)

Lemma list_sum_app a b : list_sum (a ++ b) = list_sum a + list_sum b.
Proof. induction a; simpl; lra. Qed.

Lemma list_sum_perm a b : Permutation a b -> list_sum a = list_sum b.
Proof. induction 1; simpl; lra. Qed.

Lemma np_sum_concat A : np_sum A = list_sum (concat A).
Proof.
  unfold np_sum. induction A as [|row A IH]; simpl; [reflexivity|].
  now rewrite list_sum_app, IH.
Qed.

Lemma concat_perm {X : Type} (A B : list (list X)) :
  Permutation A B -> Permutation (concat A) (concat B).
Proof.
  induction 1; simpl.
  - constructor.
  - now apply Permutation_app_head.
  - rewrite !app_assoc. apply Permutation_app_tail, Permutation_app_comm.
  - etransitivity; eassumption.
Qed.

Lemma concat_rows_perm {X : Type} (g : list X -> list X) (A : list (list X)) :
  (forall row, Permutation (g row) row) ->
  Permutation (concat (map g A)) (concat A).
Proof.
  intros Hg. induction A as [|row A IH]; simpl; [constructor|].
  now apply Permutation_app.
Qed.

(** Rolling an array only rearranges its entries. *)
Lemma np_roll_perm A k ax : Permutation (concat (np_roll A k ax)) (concat A).
Proof.
  destruct ax; simpl.
  - apply concat_perm, roll_perm.
  - apply concat_rows_perm. intros row. apply roll_perm.
Qed.

Lemma np_sum_roll A k ax : np_sum (np_roll A k ax) = np_sum A.
Proof. rewrite !np_sum_concat. apply list_sum_perm, np_roll_perm. Qed.

Lemma list_sum_scale c l : list_sum (map (fun x => c * x) l) = c * list_sum l.
Proof. induction l; simpl; [lra|]. rewrite IHl. lra. Qed.

Lemma np_sum_scale c A : np_sum (c *: A) = c * np_sum A.
Proof.
  unfold np_sum, mmap. induction A as [|row A IH]; simpl; [lra|].
  rewrite IH, list_sum_scale. lra.
Qed.

Lemma list_sum_add a b :
  length a = length b ->
  list_sum (zip_with Rplus a b) = list_sum a + list_sum b.
Proof.
  revert b. induction a as [|x a IH]; intros [|y b] H; simpl in *;
    try discriminate; [lra|].
  rewrite IH by lia. lra.
Qed.

Lemma np_sum_add n m A B :
  shape n m A -> shape n m B -> np_sum (A .+ B) = np_sum A + np_sum B.
Proof.
  unfold np_sum, mmap2, shape. revert n B.
  induction A as [|a A IH]; intros n [|b B] [Hn HA] [Hn' HB]; simpl in *;
    subst; try discriminate; [lra|].
  inversion HA; inversion HB; subst.
  rewrite (IH (length A) B) by auto.
  rewrite list_sum_add by congruence. lra.
Qed.

(** The flux-divergence update leaves the sum over all cells unchanged:
    what leaves a cell through a face enters its neighbour. *)
Lemma apply_flux_sum n m F flux_F_X flux_F_Y dx dt :
  shape n m F -> shape n m flux_F_X -> shape n m flux_F_Y ->
  np_sum (apply_flux F flux_F_X flux_F_Y dx dt) = np_sum F.
Proof.
  intros HF HX HY. unfold apply_flux. cbv zeta.
  repeat (rewrite (np_sum_add n m) by shapes).
  rewrite !np_sum_scale, !np_sum_roll. ring.
Qed.

(* ================================================================= *)
(** ** Shapes through one pass of the loop *)

Lemma shape_apply_flux n m F fX fY dx dt :
  shape n m F -> shape n m fX -> shape n m fY ->
  shape n m (apply_flux F fX fY dx dt).
Proof. intros. unfold apply_flux. cbv zeta. shapes. Qed.

Lemma shape_primitive_variables n m mass px py V :
  shape n m mass -> shape n m px -> shape n m py ->
  let '(rho, vx, vy) := primitive_variables mass px py V in
  shape n m rho /\ shape n m vx /\ shape n m vy.
Proof. intros. unfold primitive_variables. cbv zeta. split_shapes. Qed.

Lemma shape_grad n m f dx :
  shape n m f ->
  shape n m (fst (grad f dx)) /\ shape n m (snd (grad f dx)).
Proof. intros. unfold grad. cbn [fst snd]. split_shapes. Qed.

Lemma shape_extrapolate n m f f_dx f_dy dx :
  shape n m f -> shape n m f_dx -> shape n m f_dy ->
  let '(f_XL, f_XR, f_YL, f_YR) := extrapolate f f_dx f_dy dx in
  shape n m f_XL /\ shape n m f_XR /\ shape n m f_YL /\ shape n m f_YR.
Proof. intros. unfold extrapolate. cbv zeta. split_shapes. Qed.

Lemma shape_get_flux n m rho_L rho_R vx_L vx_R vy_L vy_R :
  shape n m rho_L -> shape n m rho_R ->
  shape n m vx_L -> shape n m vx_R ->
  shape n m vy_L -> shape n m vy_R ->
  let '(flux_Mass, flux_Momx, flux_Momy) :=
    get_flux rho_L rho_R vx_L vx_R vy_L vy_R in
  shape n m flux_Mass /\ shape n m flux_Momx /\ shape n m flux_Momy.
Proof. intros. unfold get_flux. cbv zeta. split_shapes. Qed.

Lemma shape_compute_fluxes n m rho vx vy dx dt :
  shape n m rho -> shape n m vx -> shape n m vy ->
  wf_fluxes n m (compute_fluxes rho vx vy dx dt).
Proof.
  intros Hrho Hvx Hvy. unfold compute_fluxes.
  destruct (shape_grad n m rho dx Hrho) as [Hrx Hry].
  destruct (shape_grad n m vx dx Hvx) as [Hvxx Hvxy].
  destruct (shape_grad n m vy dx Hvy) as [Hvyx Hvyy].
  destruct (grad rho dx) as [rho_dx rho_dy].
  destruct (grad vx dx) as [vx_dx vx_dy].
  destruct (grad vy dx) as [vy_dx vy_dy].
  cbn [fst snd] in *. cbv zeta.
  match goal with
  | |- context [extrapolate ?r rho_dx rho_dy dx] =>
      assert (Hr : shape n m r) by shapes;
      pose proof (shape_extrapolate n m r rho_dx rho_dy dx Hr Hrx Hry) as Her;
      destruct (extrapolate r rho_dx rho_dy dx) as [[[rho_XL rho_XR] rho_YL] rho_YR]
  end.
  match goal with
  | |- context [extrapolate ?r vx_dx vx_dy dx] =>
      assert (Hx : shape n m r) by shapes;
      pose proof (shape_extrapolate n m r vx_dx vx_dy dx Hx Hvxx Hvxy) as Hex;
      destruct (extrapolate r vx_dx vx_dy dx) as [[[vx_XL vx_XR] vx_YL] vx_YR]
  end.
  match goal with
  | |- context [extrapolate ?r vy_dx vy_dy dx] =>
      assert (Hy : shape n m r) by shapes;
      pose proof (shape_extrapolate n m r vy_dx vy_dy dx Hy Hvyx Hvyy) as Hey;
      destruct (extrapolate r vy_dx vy_dy dx) as [[[vy_XL vy_XR] vy_YL] vy_YR]
  end.
  destruct Her as (? & ? & ? & ?), Hex as (? & ? & ? & ?), Hey as (? & ? & ? & ?).
  pose proof (shape_get_flux n m rho_XL rho_XR vx_XL vx_XR vy_XL vy_XR) as HfX.
  pose proof (shape_get_flux n m rho_YL rho_YR vy_YL vy_YR vx_YL vx_YR) as HfY.
  destruct (get_flux rho_XL rho_XR vx_XL vx_XR vy_XL vy_XR) as [[? ?] ?].
  destruct (get_flux rho_YL rho_YR vy_YL vy_YR vx_YL vx_YR) as [[? ?] ?].
  destruct HfX as (? & ? & ?); auto.
  destruct HfY as (? & ? & ?); auto.
  unfold wf_fluxes. cbn. auto 10.
Qed.

(* ================================================================= *)
(** ** One pass of the loop, decomposed *)

Arguments primitive_variables : simpl never.
Arguments conserved_variables : simpl never.
Arguments grad : simpl never.
Arguments extrapolate : simpl never.
Arguments apply_flux : simpl never.
Arguments get_flux : simpl never.
Arguments compute_fluxes : simpl never.
Arguments fluxes_of : simpl never.
Arguments np_roll : simpl never.

Lemma body_eq p s :
  body p s =
  (step <- get_time_step p (t s) (outputCount s) (vx_of p s) (vy_of p s) ;;
   Ok (advance p s (fst step) (snd step))).
Proof.
  unfold body, advance, fluxes_of, rho_of, vx_of, vy_of, primitives.
  destruct (primitive_variables (Mass s) (Momx s) (Momy s) (vol p))
    as [[rho vx] vy].
  cbn [fst snd].
  destruct (get_time_step p (t s) (outputCount s) vx vy) as [[dt plot]|e];
    cbn [bind fst snd]; [|reflexivity].
  destruct plot; reflexivity.
Qed.

Lemma body_Ok p s s' fr :
  body p s = Ok (s', fr) ->
  exists dt plot,
    get_time_step p (t s) (outputCount s) (vx_of p s) (vy_of p s) = Ok (dt, plot)
    /\ advance p s dt plot = (s', fr).
Proof.
  rewrite body_eq.
  destruct (get_time_step p (t s) (outputCount s) (vx_of p s) (vy_of p s))
    as [[dt plot]|e]; cbn [bind fst snd]; intros H; [|discriminate].
  exists dt, plot. split; [reflexivity | congruence].
Qed.

Lemma shape_primitives n m p s :
  wf_state n m s ->
  shape n m (rho_of p s) /\ shape n m (vx_of p s) /\ shape n m (vy_of p s).
Proof.
  intros (HM & HX & HY). unfold rho_of, vx_of, vy_of, primitives.
  pose proof (shape_primitive_variables n m _ _ _ (vol p) HM HX HY) as H.
  destruct (primitive_variables (Mass s) (Momx s) (Momy s) (vol p))
    as [[rho vx] vy].
  exact H.
Qed.

Lemma shape_fluxes_of n m p s dt :
  wf_state n m s -> wf_fluxes n m (fluxes_of p s dt).
Proof.
  intros Hs. destruct (shape_primitives n m p s Hs) as (? & ? & ?).
  unfold fluxes_of. apply shape_compute_fluxes; assumption.
Qed.

Lemma wf_advance n m p s dt plot :
  wf_state n m s -> wf_state n m (fst (advance p s dt plot)).
Proof.
  intros Hs. pose proof (shape_fluxes_of n m p s dt Hs) as Hf.
  destruct Hs as (? & ? & ?), Hf as (? & ? & ? & ? & ? & ?).
  unfold advance, wf_state. cbv zeta. cbn [fst Mass Momx Momy].
  split; [|split]; apply shape_apply_flux; assumption.
Qed.

Lemma wf_body n m p s s' fr :
  wf_state n m s -> body p s = Ok (s', fr) -> wf_state n m s'.
Proof.
  intros Hs Hb. apply body_Ok in Hb. destruct Hb as (dt & plot & _ & Hadv).
  pose proof (wf_advance n m p s dt plot Hs) as H.
  now rewrite Hadv in H.
Qed.

(* ================================================================= *)
(** ** Conservation *)

(** C1.  A conserved state and six flux arrays of one shape: the
    [apply_flux] updates of mass, x-momentum and y-momentum with their x-
    and y-direction fluxes leave the three sums over all cells unchanged,
    for any [dx] and [dt]; in particular a pass of the loop does. *)
Theorem conservation n m p s fl dt :
  wf_state n m s -> wf_fluxes n m fl ->
  (np_sum (apply_flux (Mass s) (flux_Mass_X fl) (flux_Mass_Y fl) (dx p) dt)
     = np_sum (Mass s) /\
   np_sum (apply_flux (Momx s) (flux_Momx_X fl) (flux_Momx_Y fl) (dx p) dt)
     = np_sum (Momx s) /\
   np_sum (apply_flux (Momy s) (flux_Momy_X fl) (flux_Momy_Y fl) (dx p) dt)
     = np_sum (Momy s))
  /\
  (forall s' fr, body p s = Ok (s', fr) ->
     np_sum (Mass s') = np_sum (Mass s) /\
     np_sum (Momx s') = np_sum (Momx s) /\
     np_sum (Momy s') = np_sum (Momy s)).
Proof.
  intros Hs Hfl. split.
  - destruct Hs as (? & ? & ?), Hfl as (? & ? & ? & ? & ? & ?).
    split; [|split]; apply (apply_flux_sum n m); assumption.
  - intros s' fr Hb. apply body_Ok in Hb.
    destruct Hb as (dt' & plot & _ & Hadv).
    pose proof (shape_fluxes_of n m p s dt' Hs) as Hf.
    destruct Hs as (? & ? & ?), Hf as (? & ? & ? & ? & ? & ?).
    apply (f_equal fst) in Hadv. cbn [fst] in Hadv. subst s'.
    unfold advance. cbv zeta. cbn [fst Mass Momx Momy].
    split; [|split]; apply (apply_flux_sum n m); assumption.
Qed.

Lemma conservation_witness :
  let s := mkState [[1; 2]] [[3; 4]] [[5; 6]] 0 1 in
  let fl := mkFluxes [[1; 0]] [[0; 1]] [[2; 3]] [[4; 5]] [[6; 7]] [[8; 9]] in
  (np_sum (apply_flux (Mass s) (flux_Mass_X fl) (flux_Mass_Y fl)
             (dx main_params) 1) = np_sum (Mass s) /\
   np_sum (apply_flux (Momx s) (flux_Momx_X fl) (flux_Momx_Y fl)
             (dx main_params) 1) = np_sum (Momx s) /\
   np_sum (apply_flux (Momy s) (flux_Momy_X fl) (flux_Momy_Y fl)
             (dx main_params) 1) = np_sum (Momy s))
  /\
  (forall s' fr, body main_params s = Ok (s', fr) ->
     np_sum (Mass s') = np_sum (Mass s) /\
     np_sum (Momx s') = np_sum (Momx s) /\
     np_sum (Momy s') = np_sum (Momy s)).
Proof.
  apply (conservation 1 2 main_params
           (mkState [[1; 2]] [[3; 4]] [[5; 6]] 0 1)
           (mkFluxes [[1; 0]] [[0; 1]] [[2; 3]] [[4; 5]] [[6; 7]] [[8; 9]]) 1).
  - unfold wf_state, shape. cbn. repeat split; repeat constructor.
  - unfold wf_fluxes, shape. cbn. repeat split; repeat constructor.
Defined.

(* ================================================================= *)
(** ** The CFL time step *)

Lemma concat_mmap f A : concat (mmap f A) = map f (concat A).
Proof. unfold mmap. now rewrite concat_map. Qed.

Lemma list_max_nonempty l : l <> [] -> exists x, list_max l = Some x.
Proof.
  destruct l as [|x l]; [congruence|]. intros _. simpl.
  destruct (list_max l); eauto.
Qed.

Lemma concat_nonempty n m A :
  shape n m A -> (0 < n)%nat -> (0 < m)%nat -> concat A <> [].
Proof.
  intros [Hn Hm] Hn0 Hm0. destruct A as [|row A]; simpl in *; [lia|].
  inversion Hm; subst. destruct row; simpl in *; [lia | discriminate].
Qed.

(** Under a map that reverses the order on the non-negative reals, the
    minimum of the images is the image of the maximum. *)
Lemma list_min_antitone (g : R -> R) l :
  (forall x y, 0 <= x -> x <= y -> g y <= g x) ->
  Forall (fun x => 0 <= x) l ->
  match list_max l with
  | Some M => 0 <= M /\ list_min (map g l) = Some (g M)
  | None => list_min (map g l) = None
  end.
Proof.
  intros Hg Hl. induction Hl as [|x l Hx Hl IH]; simpl; [reflexivity|].
  destruct (list_max l) as [M|].
  - destruct IH as [HM ->]. split.
    + apply Rle_trans with x; [assumption | apply Rmax_l].
    + f_equal. destruct (Rle_dec x M) as [Hle|Hgt].
      * rewrite (Rmax_right x M) by assumption.
        apply Rmin_right. now apply Hg.
      * rewrite (Rmax_left x M) by lra.
        apply Rmin_left. apply Hg; lra.
  - rewrite IH. split; [assumption | reflexivity].
Qed.

Lemma speed_nonneg vx vy : Forall (fun x => 0 <= x) (concat (speed vx vy)).
Proof.
  unfold speed, np_sqrt. rewrite concat_mmap.
  apply Forall_map, Forall_forall. intros x _. apply sqrt_pos.
Qed.

Lemma shape_speed n m vx vy :
  shape n m vx -> shape n m vy -> shape n m (speed vx vy).
Proof. intros. unfold speed. shapes. Qed.

(** The CFL time step is [courant_fac * dx / (1 + maxSpeed)]. *)
Lemma cfl_dt_max_speed p n m vx vy :
  0 < dx p -> (0 < n)%nat -> (0 < m)%nat ->
  shape n m vx -> shape n m vy ->
  exists maxSpeed,
    max_speed vx vy = Some maxSpeed /\ 0 <= maxSpeed /\
    cfl_dt p vx vy = Ok (courant_fac p * (dx p / (1 + maxSpeed))).
Proof.
  intros Hdx Hn Hm Hvx Hvy.
  pose proof (shape_speed n m vx vy Hvx Hvy) as HS.
  destruct (list_max_nonempty (concat (speed vx vy))
              (concat_nonempty n m _ HS Hn Hm)) as [M HM].
  pose proof (list_min_antitone (fun x => dx p / (1 + x))
                (concat (speed vx vy))) as Hmin.
  rewrite HM in Hmin. destruct Hmin as [HM0 Hmin].
  - intros x y Hx Hxy. unfold Rdiv.
    apply Rmult_le_compat_l; [lra|].
    apply Rinv_le_contravar; lra.
  - apply speed_nonneg.
  - exists M. split; [exact HM|]. split; [exact HM0|].
    unfold cfl_dt, np_min. fold (speed vx vy).
    rewrite !concat_mmap, map_map, Hmin. reflexivity.
Qed.

(** C3.  On a pass of the loop over a non-empty grid with [dx > 0], the
    time step [dt] that the pass uses satisfies
    [dt * (1 + maxSpeed) / dx <= courant_fac], where [maxSpeed] is the
    largest [sqrt(vx^2 + vy^2)] of the current primitive fields.  On a pass
    that does not truncate [dt] for an output time the two sides are equal;
    on a truncating pass [dt] is the distance to the output time, which is
    strictly smaller than the CFL step. *)
Theorem cfl_bound p n m s :
  0 < dx p -> (0 < n)%nat -> (0 < m)%nat -> wf_state n m s ->
  exists dt plotThisTurn maxSpeed s' fr,
    get_time_step p (t s) (outputCount s) (vx_of p s) (vy_of p s)
      = Ok (dt, plotThisTurn) /\
    body p s = Ok (s', fr) /\ t s' = t s + dt /\
    max_speed (vx_of p s) (vy_of p s) = Some maxSpeed /\
    dt * (1 + maxSpeed) / dx p <= courant_fac p /\
    (plotThisTurn = false -> dt * (1 + maxSpeed) / dx p = courant_fac p) /\
    (plotThisTurn = true ->
       dt = target p (outputCount s) - t s /\
       dt * (1 + maxSpeed) / dx p < courant_fac p).
Proof.
  intros Hdx Hn Hm Hs.
  destruct (shape_primitives n m p s Hs) as (_ & Hvx & Hvy).
  destruct (cfl_dt_max_speed p n m _ _ Hdx Hn Hm Hvx Hvy)
    as (M & HM & HM0 & Hcfl).
  assert (Heq : courant_fac p * (dx p / (1 + M)) * (1 + M) / dx p
                = courant_fac p) by (field; lra).
  assert (Hk : 0 < (1 + M) / dx p).
  { apply Rdiv_lt_0_compat; lra. }
  rewrite body_eq. unfold get_time_step. rewrite Hcfl. cbn [bind].
  destruct (Rgt_dec _ _) as [Hgt|Hle]; cbn [bind fst snd].
  - eexists _, true, M, _, _.
    split; [reflexivity|]. split; [reflexivity|].
    split; [reflexivity|]. split; [exact HM|].
    assert (Hlt : (target p (outputCount s) - t s) * (1 + M) / dx p
                  < courant_fac p).
    { rewrite <- Heq.
      replace ((target p (outputCount s) - t s) * (1 + M) / dx p)
        with ((target p (outputCount s) - t s) * ((1 + M) / dx p))
        by (unfold Rdiv; ring).
      replace (courant_fac p * (dx p / (1 + M)) * (1 + M) / dx p)
        with (courant_fac p * (dx p / (1 + M)) * ((1 + M) / dx p))
        by (unfold Rdiv; ring).
      apply Rmult_lt_compat_r; [exact Hk|]. lra. }
    split; [lra|]. split; [discriminate|]. intros _. split; [reflexivity|lra].
  - eexists _, false, M, _, _.
    split; [reflexivity|]. split; [reflexivity|].
    split; [reflexivity|]. split; [exact HM|].
    split; [lra|]. split; [intros _; exact Heq | discriminate].
Qed.

Lemma cfl_bound_witness :
  let s := mkState [[2]] [[1]] [[0]] 0 1 in
  exists dt plotThisTurn maxSpeed s' fr,
    get_time_step main_params (t s) (outputCount s)
      (vx_of main_params s) (vy_of main_params s) = Ok (dt, plotThisTurn) /\
    body main_params s = Ok (s', fr) /\ t s' = t s + dt /\
    max_speed (vx_of main_params s) (vy_of main_params s) = Some maxSpeed /\
    dt * (1 + maxSpeed) / dx main_params <= courant_fac main_params /\
    (plotThisTurn = false ->
       dt * (1 + maxSpeed) / dx main_params = courant_fac main_params) /\
    (plotThisTurn = true ->
       dt = target main_params (outputCount s) - t s /\
       dt * (1 + maxSpeed) / dx main_params < courant_fac main_params).
Proof.
  apply (cfl_bound main_params 1 1 (mkState [[2]] [[1]] [[0]] 0 1)); try lia.
  - unfold dx. cbn. lra.
  - unfold wf_state. cbn. auto using shape_1x1.
Defined.

(* ================================================================= *)
(** ** Uniform fields *)

Lemma mmap_const f n m c : mmap f (const_matrix n m c) = const_matrix n m (f c).
Proof. unfold mmap, const_matrix. now rewrite !map_repeat. Qed.

Lemma mmap2_const f n m a b :
  mmap2 f (const_matrix n m a) (const_matrix n m b) = const_matrix n m (f a b).
Proof. unfold mmap2, const_matrix. now rewrite !zip_with_repeat. Qed.

Lemma np_roll_const n m c k ax :
  np_roll (const_matrix n m c) k ax = const_matrix n m c.
Proof.
  unfold np_roll, const_matrix. destruct ax.
  - apply roll_repeat.
  - rewrite map_repeat. now rewrite roll_repeat.
Qed.

Lemma list_min_repeat c k : (0 < k)%nat -> list_min (repeat c k) = Some c.
Proof.
  induction k as [|k IH]; [lia|]. intros _. simpl.
  destruct k as [|k]; [reflexivity|].
  rewrite IH by lia. f_equal. apply Rmin_left. lra.
Qed.

Lemma concat_const n m c : concat (const_matrix n m c) = repeat c (n * m).
Proof.
  unfold const_matrix. induction n as [|n IH]; simpl; [reflexivity|].
  now rewrite IH, repeat_app.
Qed.

Lemma np_min_const n m c :
  (0 < n)%nat -> (0 < m)%nat -> np_min (const_matrix n m c) = Some c.
Proof.
  intros Hn Hm. unfold np_min. rewrite concat_const.
  apply list_min_repeat. nia.
Qed.

Ltac consts :=
  repeat first
    [ rewrite np_roll_const | rewrite mmap2_const | rewrite mmap_const ].

Lemma const_eq n m a b : a = b -> const_matrix n m a = const_matrix n m b.
Proof. now intros ->. Qed.

Lemma primitive_variables_const n m a b c V :
  primitive_variables (const_matrix n m a) (const_matrix n m b)
                      (const_matrix n m c) V
  = (const_matrix n m (a / V), const_matrix n m (b / (a / V) / V),
     const_matrix n m (c / (a / V) / V)).
Proof. unfold primitive_variables. cbv zeta. consts. reflexivity. Qed.

Lemma grad_const n m c dx :
  grad (const_matrix n m c) dx = (const_matrix n m 0, const_matrix n m 0).
Proof.
  unfold grad. cbv zeta. consts.
  f_equal; apply const_eq; unfold Rdiv; ring.
Qed.

Lemma extrapolate_const n m c dx :
  extrapolate (const_matrix n m c) (const_matrix n m 0) (const_matrix n m 0) dx
  = (const_matrix n m c, const_matrix n m c,
     const_matrix n m c, const_matrix n m c).
Proof.
  unfold extrapolate. cbv zeta. consts.
  repeat f_equal; unfold Rdiv; ring.
Qed.

Lemma get_flux_const n m a b c d e f :
  get_flux (const_matrix n m a) (const_matrix n m b) (const_matrix n m c)
           (const_matrix n m d) (const_matrix n m e) (const_matrix n m f)
  = (const_matrix n m (rusanov_mass (mkInterface a b c d e f)),
     const_matrix n m (rusanov_momn (mkInterface a b c d e f)),
     const_matrix n m (rusanov_momt (mkInterface a b c d e f))).
Proof.
  unfold get_flux, msq, np_abs, np_maximum. cbv zeta. consts. reflexivity.
Qed.

Lemma apply_flux_const n m F fX fY dx dt :
  apply_flux (const_matrix n m F) (const_matrix n m fX) (const_matrix n m fY)
             dx dt
  = const_matrix n m F.
Proof.
  unfold apply_flux. cbv zeta. consts. apply const_eq. ring.
Qed.

(** At rest every face carries the pressure flux 1 in the normal momentum
    and nothing else. *)
Lemma rusanov_at_rest :
  let face := mkInterface 1 1 0 0 0 0 in
  rusanov_mass face = 0 /\ rusanov_momn face = 1 /\ rusanov_momt face = 0.
Proof.
  unfold rusanov_mass, rusanov_momn, rusanov_momt, momn_star, momt_star,
    P_star, rho_star, signal_speed. cbn [rhoL rhoR vnL vnR vtL vtR].
  rewrite Rabs_R0. repeat split; lra.
Qed.

Lemma compute_fluxes_at_rest n m dx dt :
  compute_fluxes (const_matrix n m 1) (const_matrix n m 0) (const_matrix n m 0)
                 dx dt
  = mkFluxes (const_matrix n m 0) (const_matrix n m 1) (const_matrix n m 0)
             (const_matrix n m 0) (const_matrix n m 0) (const_matrix n m 1).
Proof.
  unfold compute_fluxes. rewrite !grad_const. cbv zeta. consts.
  replace (1 - 0.5 * dt * (0 * 0 + 1 * 0 + 0 * 0 + 1 * 0)) with 1 by ring.
  replace (0 - 0.5 * dt * (0 * 0 + 0 * 0 + 1 / 1 * 0)) with 0 by lra.
  rewrite !extrapolate_const, !get_flux_const.
  destruct rusanov_at_rest as (-> & -> & ->). reflexivity.
Qed.

(* ================================================================= *)
(** ** The steady state *)

Lemma uniform_state_eq p n m t0 k :
  uniform_state p n m t0 k
  = mkState (const_matrix n m (vol p)) (const_matrix n m 0)
            (const_matrix n m 0) t0 k.
Proof.
  unfold uniform_state, conserved_variables. cbv zeta. consts.
  f_equal; apply const_eq; ring.
Qed.

Lemma vol_neq_0 p : dx p <> 0 -> vol p <> 0.
Proof. intros H. unfold vol. now apply pow_nonzero. Qed.

Lemma primitives_uniform p n m t0 k :
  dx p <> 0 ->
  primitives p (uniform_state p n m t0 k)
  = (const_matrix n m 1, const_matrix n m 0, const_matrix n m 0).
Proof.
  intros Hdx. pose proof (vol_neq_0 p Hdx) as HV.
  rewrite uniform_state_eq. unfold primitives. cbn [Mass Momx Momy].
  rewrite primitive_variables_const.
  f_equal; [f_equal|]; apply const_eq; field; auto.
Qed.

Lemma cfl_dt_at_rest p n m :
  (0 < n)%nat -> (0 < m)%nat ->
  cfl_dt p (const_matrix n m 0) (const_matrix n m 0)
  = Ok (courant_fac p * dx p).
Proof.
  intros Hn Hm. unfold cfl_dt, msq, np_sqrt. consts.
  rewrite np_min_const by assumption. cbn [of_option bind].
  replace (0 ^ 2 + 0 ^ 2) with 0 by ring. rewrite sqrt_0.
  do 2 f_equal. field.
Qed.

Lemma advance_uniform p n m t0 k dt plot :
  dx p <> 0 ->
  advance p (uniform_state p n m t0 k) dt plot
  = (uniform_state p n m (t0 + dt) (if plot then k + 1 else k)%Z,
     if plot then Some (mkFrame (t0 + dt) (const_matrix n m 1)) else None).
Proof.
  intros Hdx. unfold advance, fluxes_of, rho_of, vx_of, vy_of.
  rewrite primitives_uniform by assumption. cbn [fst snd].
  rewrite compute_fluxes_at_rest. cbv zeta.
  rewrite !uniform_state_eq.
  cbn [Mass Momx Momy t outputCount flux_Mass_X flux_Momx_X flux_Momy_X
       flux_Mass_Y flux_Momx_Y flux_Momy_Y].
  rewrite !apply_flux_const, mmap_const.
  replace (1 * 1) with 1 by ring. reflexivity.
Qed.

(** A pass of the loop from the steady state: only the clock moves. *)
Lemma body_uniform p n m t0 k :
  dx p <> 0 -> (0 < n)%nat -> (0 < m)%nat ->
  body p (uniform_state p n m t0 k) =
  if Rgt_dec (t0 + courant_fac p * dx p) (target p k)
  then Ok (uniform_state p n m (t0 + (target p k - t0)) (k + 1),
           Some (mkFrame (t0 + (target p k - t0)) (const_matrix n m 1)))
  else Ok (uniform_state p n m (t0 + courant_fac p * dx p) k, None).
Proof.
  intros Hdx Hn Hm. rewrite body_eq.
  unfold vx_of, vy_of. rewrite primitives_uniform by assumption.
  cbn [fst snd]. unfold get_time_step.
  rewrite cfl_dt_at_rest by assumption. cbn [bind].
  replace (t (uniform_state p n m t0 k)) with t0
    by (now rewrite uniform_state_eq).
  replace (outputCount (uniform_state p n m t0 k)) with k
    by (now rewrite uniform_state_eq).
  destruct (Rgt_dec _ _); cbn [bind fst snd];
    now rewrite advance_uniform.
Qed.

Lemma run_uniform p n m :
  dx p <> 0 -> (0 < n)%nat -> (0 < m)%nat ->
  forall fuel t0 k,
  exists t1 k1 frs,
    run p fuel (uniform_state p n m t0 k)
    = Ok (uniform_state p n m t1 k1, frs).
Proof.
  intros Hdx Hn Hm. induction fuel as [|fuel IH]; intros t0 k.
  - exists t0, k, []. reflexivity.
  - cbn [run]. destruct (Rlt_dec _ _).
    + rewrite body_uniform by assumption.
      destruct (Rgt_dec _ _); cbn [bind fst snd].
      * destruct (IH (t0 + (target p k - t0)) (k + 1)%Z) as (t1 & k1 & frs & ->).
        cbn [bind fst snd]. eauto.
      * destruct (IH (t0 + courant_fac p * dx p) k) as (t1 & k1 & frs & ->).
        cbn [bind fst snd]. eauto.
    + exists t0, k, []. reflexivity.
Qed.

(** C2.  On a non-empty grid with [dx <> 0], the state with density 1 and
    velocity 0 in every cell is a fixed point: one pass of the loop, and
    any number of passes, return a state whose mass and momentum fields
    are those it started from. *)
Theorem steady_state p n m fuel t0 k :
  dx p <> 0 -> (0 < n)%nat -> (0 < m)%nat ->
  let s0 := uniform_state p n m t0 k in
  (exists s' fr, body p s0 = Ok (s', fr) /\
     Mass s' = Mass s0 /\ Momx s' = Momx s0 /\ Momy s' = Momy s0) /\
  (exists s' frs, run p fuel s0 = Ok (s', frs) /\
     Mass s' = Mass s0 /\ Momx s' = Momx s0 /\ Momy s' = Momy s0).
Proof.
  intros Hdx Hn Hm s0. subst s0. split.
  - rewrite body_uniform by assumption.
    destruct (Rgt_dec _ _); eexists _, _; (split; [reflexivity|]);
      rewrite !uniform_state_eq; auto.
  - destruct (run_uniform p n m Hdx Hn Hm fuel t0 k) as (t1 & k1 & frs & ->).
    eexists _, _; (split; [reflexivity|]).
    rewrite !uniform_state_eq; auto.
Qed.

Lemma steady_state_witness :
  let s0 := uniform_state main_params 2 2 0 1 in
  (exists s' fr, body main_params s0 = Ok (s', fr) /\
     Mass s' = Mass s0 /\ Momx s' = Momx s0 /\ Momy s' = Momy s0) /\
  (exists s' frs, run main_params 5 s0 = Ok (s', frs) /\
     Mass s' = Mass s0 /\ Momx s' = Momx s0 /\ Momy s' = Momy s0).
Proof.
  apply (steady_state main_params 2 2 5 0 1); try lia.
  unfold dx. cbn. lra.
Defined.

(* ================================================================= *)
(** ** The two Riemann solves of a pass *)

Arguments face_states : simpl never.

Lemma compute_fluxes_eq rho vx vy dx dt :
  let fs := face_states rho vx vy dx dt in
  let '(fMass_X, fMomx_X, fMomy_X) :=
    get_flux (rho_XL fs) (rho_XR fs) (vx_XL fs) (vx_XR fs) (vy_XL fs) (vy_XR fs) in
  let '(fMass_Y, fMomy_Y, fMomx_Y) :=
    get_flux (rho_YL fs) (rho_YR fs) (vy_YL fs) (vy_YR fs) (vx_YL fs) (vx_YR fs) in
  compute_fluxes rho vx vy dx dt
  = mkFluxes fMass_X fMomx_X fMomy_X fMass_Y fMomx_Y fMomy_Y.
Proof.
  unfold compute_fluxes, face_states.
  destruct (grad rho dx) as [rho_dx rho_dy].
  destruct (grad vx dx) as [vx_dx vx_dy].
  destruct (grad vy dx) as [vy_dx vy_dy].
  cbv zeta.
  destruct (extrapolate _ rho_dx rho_dy dx) as [[[a1 a2] a3] a4].
  destruct (extrapolate _ vx_dx vx_dy dx) as [[[b1 b2] b3] b4].
  destruct (extrapolate _ vy_dx vy_dy dx) as [[[c1 c2] c3] c4].
  cbn [rho_XL rho_XR rho_YL rho_YR vx_XL vx_XR vx_YL vx_YR
       vy_XL vy_XR vy_YL vy_YR].
  destruct (get_flux a1 a2 b1 b2 c1 c2) as [[? ?] ?].
  destruct (get_flux a3 a4 c3 c4 b3 b4) as [[? ?] ?].
  reflexivity.
Qed.

Lemma shape_face_states n m rho vx vy dx dt :
  shape n m rho -> shape n m vx -> shape n m vy ->
  wf_faces n m (face_states rho vx vy dx dt).
Proof.
  intros Hrho Hvx Hvy. unfold face_states.
  destruct (shape_grad n m rho dx Hrho) as [Hrx Hry].
  destruct (shape_grad n m vx dx Hvx) as [Hvxx Hvxy].
  destruct (shape_grad n m vy dx Hvy) as [Hvyx Hvyy].
  destruct (grad rho dx) as [rho_dx rho_dy].
  destruct (grad vx dx) as [vx_dx vx_dy].
  destruct (grad vy dx) as [vy_dx vy_dy].
  cbn [fst snd] in *. cbv zeta.
  match goal with
  | |- context [extrapolate ?r rho_dx rho_dy dx] =>
      assert (Hr : shape n m r) by shapes;
      pose proof (shape_extrapolate n m r rho_dx rho_dy dx Hr Hrx Hry) as Her;
      destruct (extrapolate r rho_dx rho_dy dx) as [[[? ?] ?] ?]
  end.
  match goal with
  | |- context [extrapolate ?r vx_dx vx_dy dx] =>
      assert (Hx : shape n m r) by shapes;
      pose proof (shape_extrapolate n m r vx_dx vx_dy dx Hx Hvxx Hvxy) as Hex;
      destruct (extrapolate r vx_dx vx_dy dx) as [[[? ?] ?] ?]
  end.
  match goal with
  | |- context [extrapolate ?r vy_dx vy_dy dx] =>
      assert (Hy : shape n m r) by shapes;
      pose proof (shape_extrapolate n m r vy_dx vy_dy dx Hy Hvyx Hvyy) as Hey;
      destruct (extrapolate r vy_dx vy_dy dx) as [[[? ?] ?] ?]
  end.
  unfold wf_faces. cbn. auto.
Qed.

(** The entries of the three arrays that [get_flux] returns. *)
Lemma get_flux_cells n m rho_L rho_R vn_L vn_R vt_L vt_R i j :
  shape n m rho_L -> shape n m rho_R ->
  shape n m vn_L -> shape n m vn_R ->
  shape n m vt_L -> shape n m vt_R ->
  (i < n)%nat -> (j < m)%nat ->
  let face := interface_at rho_L rho_R vn_L vn_R vt_L vt_R i j in
  let out := get_flux rho_L rho_R vn_L vn_R vt_L vt_R in
  cell (fst (fst out)) i j = rusanov_mass face /\
  cell (snd (fst out)) i j = rusanov_momn face /\
  cell (snd out) i j = rusanov_momt face.
Proof.
  intros H1 H2 H3 H4 H5 H6 Hi Hj.
  unfold get_flux, msq, np_abs, np_maximum. cbv zeta. cbn [fst snd].
  unfold rusanov_mass, rusanov_momn, rusanov_momt, momn_star, momt_star,
    P_star, rho_star, signal_speed, interface_at.
  cbn [rhoL rhoR vnL vnR vtL vtR].
  repeat split; cells n m; reflexivity.
Qed.

(** C7.  A pass of the loop uses the results of two Riemann solves.  The
    x-direction solve takes the x-faces with [vx] as normal and [vy] as
    tangential velocity; the y-direction solve takes the y-faces with [vy]
    as normal and [vx] as tangential velocity.  The x-momentum is updated
    with the normal output of the x-solve and the tangential output of the
    y-solve, the y-momentum with the tangential output of the x-solve and
    the normal output of the y-solve; at every interface the tangential
    output is the tangential Rusanov flux for that assignment of roles. *)
Theorem riemann_axis_roles p n m s s' fr i j :
  wf_state n m s -> (i < n)%nat -> (j < m)%nat ->
  body p s = Ok (s', fr) ->
  exists dt,
    t s' = t s + dt /\
    let fs := face_states (rho_of p s) (vx_of p s) (vy_of p s) (dx p) dt in
    let x_solve :=
      get_flux (rho_XL fs) (rho_XR fs) (vx_XL fs) (vx_XR fs) (vy_XL fs) (vy_XR fs) in
    let y_solve :=
      get_flux (rho_YL fs) (rho_YR fs) (vy_YL fs) (vy_YR fs) (vx_YL fs) (vx_YR fs) in
    let x_face :=
      interface_at (rho_XL fs) (rho_XR fs) (vx_XL fs) (vx_XR fs)
                   (vy_XL fs) (vy_XR fs) i j in
    let y_face :=
      interface_at (rho_YL fs) (rho_YR fs) (vy_YL fs) (vy_YR fs)
                   (vx_YL fs) (vx_YR fs) i j in
    Mass s' = apply_flux (Mass s) (fst (fst x_solve)) (fst (fst y_solve)) (dx p) dt /\
    Momx s' = apply_flux (Momx s) (snd (fst x_solve)) (snd y_solve) (dx p) dt /\
    Momy s' = apply_flux (Momy s) (snd x_solve) (snd (fst y_solve)) (dx p) dt /\
    cell (snd (fst x_solve)) i j = rusanov_momn x_face /\
    cell (snd x_solve) i j = rusanov_momt x_face /\
    cell (snd (fst y_solve)) i j = rusanov_momn y_face /\
    cell (snd y_solve) i j = rusanov_momt y_face.
Proof.
  intros Hs Hi Hj Hb. apply body_Ok in Hb.
  destruct Hb as (dt & plot & _ & Hadv). exists dt.
  destruct (shape_primitives n m p s Hs) as (Hrho & Hvx & Hvy).
  pose proof (shape_face_states n m _ _ _ (dx p) dt Hrho Hvx Hvy) as Hfs.
  pose proof (compute_fluxes_eq (rho_of p s) (vx_of p s) (vy_of p s) (dx p) dt)
    as Hfl.
  cbv zeta in *.
  set (fs := face_states (rho_of p s) (vx_of p s) (vy_of p s) (dx p) dt) in *.
  destruct Hfs as ((? & ? & ? & ?) & (? & ? & ? & ?) & (? & ? & ? & ?)).
  pose proof (get_flux_cells n m (rho_XL fs) (rho_XR fs) (vx_XL fs) (vx_XR fs)
                (vy_XL fs) (vy_XR fs) i j) as HX.
  pose proof (get_flux_cells n m (rho_YL fs) (rho_YR fs) (vy_YL fs) (vy_YR fs)
                (vx_YL fs) (vx_YR fs) i j) as HY.
  cbv zeta in HX, HY.
  destruct HX as (_ & HXn & HXt); auto.
  destruct HY as (_ & HYn & HYt); auto.
  destruct (get_flux (rho_XL fs) (rho_XR fs) (vx_XL fs) (vx_XR fs)
              (vy_XL fs) (vy_XR fs)) as [[xm xn] xt].
  destruct (get_flux (rho_YL fs) (rho_YR fs) (vy_YL fs) (vy_YR fs)
              (vx_YL fs) (vx_YR fs)) as [[ym yn] yt].
  cbn [fst snd] in *.
  apply (f_equal fst) in Hadv. cbn [fst] in Hadv. subst s'.
  unfold advance, fluxes_of. cbv zeta. rewrite Hfl.
  cbn [Mass Momx Momy t fst flux_Mass_X flux_Momx_X flux_Momy_X
       flux_Mass_Y flux_Momx_Y flux_Momy_Y].
  repeat split; assumption.
Qed.

Lemma wf_uniform p n m t0 k : wf_state n m (uniform_state p n m t0 k).
Proof.
  rewrite uniform_state_eq. unfold wf_state. cbn [Mass Momx Momy].
  auto using shape_const.
Qed.

Lemma dx_tie : dx tie_params = 1 / 2.
Proof. reflexivity. Qed.

Lemma body_tie_first :
  body tie_params (uniform_state tie_params 2 2 0 1)
  = Ok (uniform_state tie_params 2 2 (0 + 0.5 * (1 / 2)) 1, None).
Proof.
  rewrite body_uniform; try lia; [|rewrite dx_tie; lra].
  destruct (Rgt_dec _ _) as [Hgt|_]; [|reflexivity].
  exfalso. unfold target in Hgt. rewrite dx_tie in Hgt. cbn in Hgt. lra.
Qed.

Lemma riemann_axis_roles_witness :
  let p := tie_params in
  let s := uniform_state p 2 2 0 1 in
  let s' := uniform_state p 2 2 (0 + 0.5 * (1 / 2)) 1 in
  exists dt,
    t s' = t s + dt /\
    let fs := face_states (rho_of p s) (vx_of p s) (vy_of p s) (dx p) dt in
    let x_solve :=
      get_flux (rho_XL fs) (rho_XR fs) (vx_XL fs) (vx_XR fs) (vy_XL fs) (vy_XR fs) in
    let y_solve :=
      get_flux (rho_YL fs) (rho_YR fs) (vy_YL fs) (vy_YR fs) (vx_YL fs) (vx_YR fs) in
    let x_face :=
      interface_at (rho_XL fs) (rho_XR fs) (vx_XL fs) (vx_XR fs)
                   (vy_XL fs) (vy_XR fs) 0 0 in
    let y_face :=
      interface_at (rho_YL fs) (rho_YR fs) (vy_YL fs) (vy_YR fs)
                   (vx_YL fs) (vx_YR fs) 0 0 in
    Mass s' = apply_flux (Mass s) (fst (fst x_solve)) (fst (fst y_solve)) (dx p) dt /\
    Momx s' = apply_flux (Momx s) (snd (fst x_solve)) (snd y_solve) (dx p) dt /\
    Momy s' = apply_flux (Momy s) (snd x_solve) (snd (fst y_solve)) (dx p) dt /\
    cell (snd (fst x_solve)) 0 0 = rusanov_momn x_face /\
    cell (snd x_solve) 0 0 = rusanov_momt x_face /\
    cell (snd (fst y_solve)) 0 0 = rusanov_momn y_face /\
    cell (snd y_solve) 0 0 = rusanov_momt y_face.
Proof.
  apply (riemann_axis_roles tie_params 2 2
           (uniform_state tie_params 2 2 0 1)
           (uniform_state tie_params 2 2 (0 + 0.5 * (1 / 2)) 1) None 0 0).
  - apply wf_uniform.
  - lia.
  - lia.
  - exact body_tie_first.
Defined.

(* ================================================================= *)
(** ** Cyclic translation *)

Lemma np_roll_mmap f A k ax : np_roll (mmap f A) k ax = mmap f (np_roll A k ax).
Proof.
  unfold np_roll, mmap. destruct ax.
  - now rewrite map_roll.
  - rewrite !map_map. apply map_ext. intros row. now rewrite map_roll.
Qed.

Lemma map_roll_zip_with (f : R -> R -> R) k (A B : matrix) :
  Forall2 (fun a b => length a = length b) A B ->
  map (roll k) (zip_with (zip_with f) A B)
  = zip_with (zip_with f) (map (roll k) A) (map (roll k) B).
Proof.
  induction 1 as [|a b A B Hab _ IH]; simpl; [reflexivity|].
  rewrite IH. f_equal. now apply zip_with_roll.
Qed.

Lemma shape_rows n m A B :
  shape n m A -> shape n m B ->
  Forall2 (fun a b : list R => length a = length b) A B.
Proof.
  unfold shape. revert n B.
  induction A as [|a A IH]; intros n [|b B] [Hn HA] [Hn' HB]; simpl in *;
    subst; try discriminate; constructor.
  - inversion HA; inversion HB; subst. congruence.
  - inversion HA; inversion HB; subst. apply (IH (length A)); auto.
Qed.

Lemma np_roll_mmap2 f n m A B k ax :
  shape n m A -> shape n m B ->
  np_roll (mmap2 f A B) k ax = mmap2 f (np_roll A k ax) (np_roll B k ax).
Proof.
  intros HA HB. unfold np_roll, mmap2. destruct ax.
  - apply zip_with_roll. destruct HA, HB. congruence.
  - apply map_roll_zip_with. now apply (shape_rows n m).
Qed.

Lemma np_roll_comm A j ax k ax' :
  np_roll (np_roll A j ax) k ax' = np_roll (np_roll A k ax') j ax.
Proof.
  unfold np_roll. destruct ax, ax'.
  - apply roll_comm.
  - now rewrite map_roll.
  - now rewrite map_roll.
  - rewrite !map_map. apply map_ext. intros row. apply roll_comm.
Qed.

(** Moves a translation by [k] along [ax] from the arguments of the
    elementwise operations and of the rolls of the code to their result. *)
Ltac pull_shift n m k ax :=
  repeat first
    [ rewrite (np_roll_comm _ k ax Dir.R aX)
    | rewrite (np_roll_comm _ k ax Dir.L aX)
    | rewrite (np_roll_comm _ k ax Dir.R aY)
    | rewrite (np_roll_comm _ k ax Dir.L aY)
    | rewrite <- (np_roll_mmap _ _ k ax)
    | rewrite <- (np_roll_mmap2 _ n m _ _ k ax) by shapes ].

Lemma primitive_variables_shift n m k ax mass px py V :
  shape n m mass -> shape n m px -> shape n m py ->
  primitive_variables (shift k ax mass) (shift k ax px) (shift k ax py) V
  = shift3 k ax (primitive_variables mass px py V).
Proof.
  intros. unfold primitive_variables, shift3. cbv zeta.
  pull_shift n m k ax. reflexivity.
Qed.

Lemma grad_shift n m k ax f dx :
  shape n m f ->
  grad (shift k ax f) dx
  = (shift k ax (fst (grad f dx)), shift k ax (snd (grad f dx))).
Proof.
  intros. unfold grad. cbv zeta. cbn [fst snd].
  pull_shift n m k ax. reflexivity.
Qed.

Lemma extrapolate_shift n m k ax f f_dx f_dy dx :
  shape n m f -> shape n m f_dx -> shape n m f_dy ->
  extrapolate (shift k ax f) (shift k ax f_dx) (shift k ax f_dy) dx
  = let '(f_XL, f_XR, f_YL, f_YR) := extrapolate f f_dx f_dy dx in
    (shift k ax f_XL, shift k ax f_XR, shift k ax f_YL, shift k ax f_YR).
Proof.
  intros. unfold extrapolate. cbv zeta.
  pull_shift n m k ax. reflexivity.
Qed.

Lemma get_flux_shift n m k ax rho_L rho_R vx_L vx_R vy_L vy_R :
  shape n m rho_L -> shape n m rho_R ->
  shape n m vx_L -> shape n m vx_R ->
  shape n m vy_L -> shape n m vy_R ->
  get_flux (shift k ax rho_L) (shift k ax rho_R) (shift k ax vx_L)
           (shift k ax vx_R) (shift k ax vy_L) (shift k ax vy_R)
  = shift3 k ax (get_flux rho_L rho_R vx_L vx_R vy_L vy_R).
Proof.
  intros. unfold get_flux, shift3, msq, np_abs, np_maximum. cbv zeta.
  pull_shift n m k ax. reflexivity.
Qed.

Lemma apply_flux_shift n m k ax F fX fY dx dt :
  shape n m F -> shape n m fX -> shape n m fY ->
  apply_flux (shift k ax F) (shift k ax fX) (shift k ax fY) dx dt
  = shift k ax (apply_flux F fX fY dx dt).
Proof.
  intros. unfold apply_flux. cbv zeta.
  pull_shift n m k ax. reflexivity.
Qed.

Lemma compute_fluxes_shift n m k ax rho vx vy dx dt :
  shape n m rho -> shape n m vx -> shape n m vy ->
  compute_fluxes (shift k ax rho) (shift k ax vx) (shift k ax vy) dx dt
  = shift_fluxes k ax (compute_fluxes rho vx vy dx dt).
Proof.
  intros Hrho Hvx Hvy. unfold compute_fluxes.
  rewrite (grad_shift n m k ax rho), (grad_shift n m k ax vx),
    (grad_shift n m k ax vy) by assumption.
  destruct (shape_grad n m rho dx Hrho) as [Hrx Hry].
  destruct (shape_grad n m vx dx Hvx) as [Hvxx Hvxy].
  destruct (shape_grad n m vy dx Hvy) as [Hvyx Hvyy].
  destruct (grad rho dx) as [rho_dx rho_dy].
  destruct (grad vx dx) as [vx_dx vx_dy].
  destruct (grad vy dx) as [vy_dx vy_dy].
  cbn [fst snd] in *. cbv zeta.
  pull_shift n m k ax.
  rewrite !(extrapolate_shift n m) by shapes.
  match goal with
  | |- context [extrapolate ?r rho_dx rho_dy dx] =>
      assert (Hr : shape n m r) by shapes;
      pose proof (shape_extrapolate n m r rho_dx rho_dy dx Hr Hrx Hry) as Her;
      destruct (extrapolate r rho_dx rho_dy dx) as [[[rho_XL rho_XR] rho_YL] rho_YR]
  end.
  match goal with
  | |- context [extrapolate ?r vx_dx vx_dy dx] =>
      assert (Hx : shape n m r) by shapes;
      pose proof (shape_extrapolate n m r vx_dx vx_dy dx Hx Hvxx Hvxy) as Hex;
      destruct (extrapolate r vx_dx vx_dy dx) as [[[vx_XL vx_XR] vx_YL] vx_YR]
  end.
  match goal with
  | |- context [extrapolate ?r vy_dx vy_dy dx] =>
      assert (Hy : shape n m r) by shapes;
      pose proof (shape_extrapolate n m r vy_dx vy_dy dx Hy Hvyx Hvyy) as Hey;
      destruct (extrapolate r vy_dx vy_dy dx) as [[[vy_XL vy_XR] vy_YL] vy_YR]
  end.
  destruct Her as (? & ? & ? & ?), Hex as (? & ? & ? & ?), Hey as (? & ? & ? & ?).
  rewrite !(get_flux_shift n m) by assumption.
  destruct (get_flux rho_XL rho_XR vx_XL vx_XR vy_XL vy_XR) as [[? ?] ?].
  destruct (get_flux rho_YL rho_YR vy_YL vy_YR vx_YL vx_YR) as [[? ?] ?].
  reflexivity.
Qed.

Lemma list_min_perm a b : Permutation a b -> list_min a = list_min b.
Proof.
  induction 1 as [|x a b _ IH|x y a|a b c _ IH1 _ IH2]; simpl.
  - reflexivity.
  - now rewrite IH.
  - destruct (list_min a) as [mn|]; f_equal.
    + now rewrite !Rmin_assoc, (Rmin_comm y x).
    + apply Rmin_comm.
  - congruence.
Qed.

Lemma np_min_shift A k ax : np_min (shift k ax A) = np_min A.
Proof. unfold np_min. apply list_min_perm, np_roll_perm. Qed.

Lemma cfl_dt_shift n m p k ax vx vy :
  shape n m vx -> shape n m vy ->
  cfl_dt p (shift k ax vx) (shift k ax vy) = cfl_dt p vx vy.
Proof.
  intros. unfold cfl_dt, msq, np_sqrt.
  pull_shift n m k ax. now rewrite np_min_shift.
Qed.

Lemma primitives_shift n m p k ax s :
  wf_state n m s ->
  primitives p (shift_state k ax s) = shift3 k ax (primitives p s).
Proof.
  intros (? & ? & ?). unfold primitives, shift_state. cbn [Mass Momx Momy].
  now apply (primitive_variables_shift n m).
Qed.

Lemma advance_shift n m p k ax s dt plot :
  wf_state n m s ->
  advance p (shift_state k ax s) dt plot
  = (shift_state k ax (fst (advance p s dt plot)),
     option_map (shift_frame k ax) (snd (advance p s dt plot))).
Proof.
  intros Hs.
  destruct (shape_primitives n m p s Hs) as (Hrho & Hvx & Hvy).
  pose proof (shape_fluxes_of n m p s dt Hs) as Hfl.
  unfold advance, fluxes_of, rho_of, vx_of, vy_of in *.
  rewrite (primitives_shift n m) by assumption.
  destruct (primitives p s) as [[rho vx] vy]. cbn [shift3 fst snd] in *.
  rewrite (compute_fluxes_shift n m) by assumption.
  destruct Hs as (? & ? & ?), Hfl as (? & ? & ? & ? & ? & ?).
  cbv zeta. unfold shift_state, shift_fluxes.
  cbn [Mass Momx Momy t outputCount fst snd flux_Mass_X flux_Momx_X
       flux_Momy_X flux_Mass_Y flux_Momx_Y flux_Momy_Y].
  rewrite !(apply_flux_shift n m) by assumption.
  destruct plot; cbn [option_map]; unfold shift_frame;
    cbn [frame_time plot_field]; rewrite ?np_roll_mmap; reflexivity.
Qed.

(* ================================================================= *)
(** ** Translation invariance of a pass *)

(** C10.  A pass of the loop commutes with the cyclic translation of the
    grid by any number [k] of cells along either axis: translating the
    three conserved fields and then running the pass gives the translated
    result of the pass, with the same [t], the same [outputCount] and the
    translated frame, and fails exactly when the pass fails. *)
Theorem body_shift n m p k ax s :
  wf_state n m s ->
  body p (shift_state k ax s) =
  match body p s with
  | Ok (s', fr) => Ok (shift_state k ax s', option_map (shift_frame k ax) fr)
  | Raise e => Raise e
  end.
Proof.
  intros Hs.
  destruct (shape_primitives n m p s Hs) as (Hrho & Hvx & Hvy).
  rewrite !body_eq. unfold vx_of, vy_of in *.
  rewrite (primitives_shift n m) by assumption.
  destruct (primitives p s) as [[rho vx] vy] eqn:Hprim.
  cbn [shift3 fst snd] in *.
  unfold get_time_step. rewrite (cfl_dt_shift n m) by assumption.
  cbn [shift_state t outputCount].
  destruct (cfl_dt p vx vy) as [dt|e]; cbn [bind]; [|reflexivity].
  destruct (Rgt_dec _ _); cbn [bind fst snd];
    rewrite (advance_shift n m) by assumption;
    destruct (advance p s _ _) as [s' fr]; reflexivity.
Qed.

Lemma body_shift_witness :
  let s := mkState [[1; 2]; [3; 4]] [[0; 1]; [1; 0]] [[2; 0]; [0; 2]] 0 1 in
  body main_params (shift_state 1 aX s) =
  match body main_params s with
  | Ok (s', fr) => Ok (shift_state 1 aX s', option_map (shift_frame 1 aX) fr)
  | Raise e => Raise e
  end.
Proof.
  apply (body_shift 2 2 main_params 1 aX
           (mkState [[1; 2]; [3; 4]] [[0; 1]; [1; 0]] [[2; 0]; [0; 2]] 0 1)).
  unfold wf_state, shape. cbn. repeat split; repeat constructor.
Defined.

(* ================================================================= *)
(** ** Set-up and validation *)

Lemma shape_repeat_row n (row : list R) : shape n (length row) (repeat row n).
Proof.
  split; [apply repeat_length|].
  apply Forall_forall. intros r Hr. now apply repeat_spec in Hr; subst.
Qed.

Lemma shape_meshgrid (x : list R) :
  let '(X, Y) := np_meshgrid x x in
  shape (length x) (length x) X /\ shape (length x) (length x) Y.
Proof.
  unfold np_meshgrid. split; [apply shape_repeat_row|].
  split; [apply length_map|].
  apply Forall_map, Forall_forall. intros yi _. apply repeat_length.
Qed.

Lemma shape_conserved_variables n m rho vx vy V :
  shape n m rho -> shape n m vx -> shape n m vy ->
  let '(mass, px, py) := conserved_variables rho vx vy V in
  shape n m mass /\ shape n m px /\ shape n m py.
Proof. intros. unfold conserved_variables. cbv zeta. split_shapes. Qed.

Lemma setup_Ok p :
  (0 < N p)%Z ->
  exists s, setup p = Ok s /\ t s = 0 /\ outputCount s = 1%Z /\
            wf_state (Z.to_nat (N p)) (Z.to_nat (N p)) s.
Proof.
  intros HN. unfold setup, np_linspace.
  destruct (N p =? 0)%Z eqn:E0; [apply Z.eqb_eq in E0; lia|].
  destruct (N p <? 0)%Z eqn:E1; [apply Z.ltb_lt in E1; lia|].
  cbn [bind]. cbv zeta.
  match goal with
  | |- context [np_meshgrid ?x ?x] =>
      pose proof (shape_meshgrid x) as Hmesh;
      assert (Hlen : length x = Z.to_nat (N p))
        by (now rewrite length_map, length_seq);
      destruct (np_meshgrid x x) as [X Y]
  end.
  rewrite Hlen in Hmesh. destruct Hmesh as [HX HY].
  match goal with
  | |- context [conserved_variables ?r ?u ?v ?V] =>
      pose proof (shape_conserved_variables (Z.to_nat (N p)) (Z.to_nat (N p))
                    r u v V) as Hc;
      destruct (conserved_variables r u v V) as [[mass px] py]
  end.
  eexists. split; [reflexivity|]. cbn [t outputCount].
  split; [reflexivity|]. split; [reflexivity|].
  apply Hc; unfold np_sin, np_cos, msq; shapes.
Qed.

(** C8 fails on the code: a Courant factor of 2 lies outside (0,1] and the
    set-up accepts it. *)
Lemma setup_accepts_courant_2 :
  invalid_config courant_2_params /\ ~ rejected (setup courant_2_params).
Proof.
  split.
  - right. right. left. cbn. lra.
  - destruct (setup_Ok courant_2_params) as (s & Hs & _); [reflexivity|].
    intros [e He]. congruence.
Qed.

(** C8, amended.  The set-up checks nothing itself.  It stops before any
    pass of the loop exactly when [N <= 0]: Python's [ZeroDivisionError] of
    [Lbox / N] for [N = 0], numpy's [ValueError] of [linspace] for [N < 0],
    and then the whole simulation stops with that exception.  For every
    [N > 0] it builds the [N] by [N] initial state with [t = 0] and
    [outputCount = 1], whatever [Lbox], [courant_fac], [tEnd] and [Nout]
    are. *)
Theorem setup_checks p fuel :
  ((N p = 0)%Z ->
     setup p = Raise ZeroDivisionError /\
     simulate p fuel = Raise ZeroDivisionError) /\
  ((N p < 0)%Z ->
     setup p = Raise ValueError /\ simulate p fuel = Raise ValueError) /\
  ((0 < N p)%Z ->
     exists s, setup p = Ok s /\ t s = 0 /\ outputCount s = 1%Z /\
               wf_state (Z.to_nat (N p)) (Z.to_nat (N p)) s).
Proof.
  split; [|split].
  - intros H0. unfold simulate, setup. rewrite H0. split; reflexivity.
  - intros Hneg. unfold simulate, setup, np_linspace.
    destruct (N p =? 0)%Z eqn:E0; [apply Z.eqb_eq in E0; lia|].
    destruct (N p <? 0)%Z eqn:E1; [|apply Z.ltb_ge in E1; lia].
    split; reflexivity.
  - apply setup_Ok.
Qed.

(* ================================================================= *)
(** ** The clock of the loop and the output times *)

Lemma list_min_In l x : list_min l = Some x -> In x l.
Proof.
  revert x. induction l as [|y l IH]; simpl; [discriminate|].
  intros x. destruct (list_min l) as [mn|].
  - intros [= <-]. unfold Rmin. destruct (Rle_dec y mn); auto.
  - intros [= <-]. auto.
Qed.



Section Targets.
Variable p : Params.
Hypothesis tEnd_pos : 0 < tEnd p.
Hypothesis Nout_pos : (0 < Nout p)%Z.







Hypothesis courant_nonneg : 0 <= courant_fac p.
Hypothesis dx_nonneg : 0 <= dx p.





End Targets.

(* ================================================================= *)
(** ** A run that lands on every output time *)

Section UniformRun.
Variables (p : Params) (n m : nat).
Hypothesis dx_nonzero : dx p <> 0.
Hypothesis n_pos : (0 < n)%nat.
Hypothesis m_pos : (0 < m)%nat.

Lemma t_uniform t0 k : t (uniform_state p n m t0 k) = t0.
Proof. now rewrite uniform_state_eq. Qed.

(** A pass that keeps its CFL step. *)
Lemma run_uniform_free fuel t0 k t1 :
  t0 < tEnd p -> t0 + courant_fac p * dx p <= target p k ->
  t1 = t0 + courant_fac p * dx p ->
  run p (S fuel) (uniform_state p n m t0 k)
  = (r <- run p fuel (uniform_state p n m t1 k) ;; Ok (fst r, snd r)).
Proof.
  intros Hlt Hle ->. cbn [run]. rewrite t_uniform.
  destruct (Rlt_dec t0 (tEnd p)) as [_|Hn]; [|contradiction].
  rewrite body_uniform by assumption.
  destruct (Rgt_dec _ _) as [Hgt|_]; [lra|]. reflexivity.
Qed.

(** A pass that truncates its step and draws a frame. *)
Lemma run_uniform_snap fuel t0 k t1 k1 :
  t0 < tEnd p -> t0 + courant_fac p * dx p > target p k ->
  t1 = target p k -> k1 = (k + 1)%Z ->
  run p (S fuel) (uniform_state p n m t0 k)
  = (r <- run p fuel (uniform_state p n m t1 k1) ;;
     Ok (fst r, mkFrame t1 (const_matrix n m 1) :: snd r)).
Proof.
  intros Hlt Hgt -> ->. cbn [run]. rewrite t_uniform.
  destruct (Rlt_dec t0 (tEnd p)) as [_|Hn]; [|contradiction].
  rewrite body_uniform by assumption.
  destruct (Rgt_dec _ _) as [_|Hn]; [|contradiction].
  replace (t0 + (target p k - t0)) with (target p k) by ring.
  reflexivity.
Qed.

Lemma run_uniform_done fuel t0 k :
  ~ t0 < tEnd p ->
  run p fuel (uniform_state p n m t0 k) = Ok (uniform_state p n m t0 k, []).
Proof.
  intros Hge. destruct fuel; cbn [run]; [reflexivity|]. rewrite t_uniform.
  destruct (Rlt_dec t0 (tEnd p)); [contradiction | reflexivity].
Qed.

End UniformRun.

Ltac tie_arith :=
  unfold target, dx;
  cbn [courant_fac tEnd Nout Lbox N tie_params];
  lra.

(** With the parameters [tie_params] the steady state takes seven passes to
    reach [tEnd = 1]; three of them draw a frame, at 0.25, 0.5 and 0.75.
    The seventh pass reaches 1 with its full CFL step, so no frame is drawn
    at 1. *)
Lemma run_tie :
  run tie_params 8 (uniform_state tie_params 2 2 0 1)
  = Ok (uniform_state tie_params 2 2 1 4,
        [mkFrame 0.25 (const_matrix 2 2 1);
         mkFrame 0.5 (const_matrix 2 2 1);
         mkFrame 0.75 (const_matrix 2 2 1)]).
Proof.
  assert (Hdx : dx tie_params <> 0) by (rewrite dx_tie; lra).
  assert (H2 : (0 < 2)%nat) by lia.
  rewrite (run_uniform_free tie_params 2 2 Hdx H2 H2 7 0 1 0.25) by tie_arith.
  rewrite (run_uniform_snap tie_params 2 2 Hdx H2 H2 6 0.25 1 0.25 2)
    by (tie_arith || reflexivity).
  rewrite (run_uniform_free tie_params 2 2 Hdx H2 H2 5 0.25 2 0.5) by tie_arith.
  rewrite (run_uniform_snap tie_params 2 2 Hdx H2 H2 4 0.5 2 0.5 3)
    by (tie_arith || reflexivity).
  rewrite (run_uniform_free tie_params 2 2 Hdx H2 H2 3 0.5 3 0.75) by tie_arith.
  rewrite (run_uniform_snap tie_params 2 2 Hdx H2 H2 2 0.75 3 0.75 4)
    by (tie_arith || reflexivity).
  rewrite (run_uniform_free tie_params 2 2 Hdx H2 H2 1 0.75 4 1) by tie_arith.
  rewrite (run_uniform_done tie_params 2 2 1 1 4) by tie_arith.
  reflexivity.
Qed.

(** C4.  The claim wants frames at 0.25, 0.5, 0.75 and 1.0 when [tEnd = 1]
    and [Nout = 4].  This run has these parameters, has left the loop, and
    has drawn frames at 0.25, 0.5 and 0.75 only: the pass that reaches
    [tEnd] did so with [t + dt] equal to the output time, which the test
    [t + dt > outputCount*tEnd/Nout] does not count as due. *)
Lemma tie_run_skips_last_frame :
  tEnd tie_params = 1 /\ Nout tie_params = 4%Z /\
  exists s' frs,
    run tie_params 8 (uniform_state tie_params 2 2 0 1) = Ok (s', frs) /\
    finished tie_params s' /\
    frame_times frs = [0.25; 0.5; 0.75] /\
    frame_times frs <> [0.25; 0.5; 0.75; 1].
Proof.
  split; [reflexivity|]. split; [reflexivity|].
  eexists _, _. split; [exact run_tie|].
  split; [|split].
  - unfold finished. rewrite uniform_state_eq. cbn [t tEnd tie_params]. lra.
  - reflexivity.
  - cbn. discriminate.
Qed.




(* ================================================================= *)
(** * Further properties of the kernels *)

(** ** Face values *)

(** X1.  The four arrays of [extrapolate], cell by cell.  The right-face
    arrays hold the value of the cell itself moved half a cell forward,
    [f + f_d*dx/2]; the left-face arrays hold at [(i, j)] the value of the
    next cell along the axis moved half a cell back, so that [f_XL[i][j]]
    and [f_XR[i][j]] are the two states at the face between the cells [j]
    and [j+1] of row [i] (and likewise along y). *)
Theorem extrapolate_cells n m f f_dx f_dy dx i j :
  shape n m f -> shape n m f_dx -> shape n m f_dy ->
  (i < n)%nat -> (j < m)%nat ->
  let '(f_XL, f_XR, f_YL, f_YR) := extrapolate f f_dx f_dy dx in
  let j' := neighbor j 1 m in
  let i' := neighbor i 1 n in
  cell f_XL i j = cell f i j' - cell f_dx i j' * dx / 2 /\
  cell f_XR i j = cell f i j + cell f_dx i j * dx / 2 /\
  cell f_YL i j = cell f i' j - cell f_dy i' j * dx / 2 /\
  cell f_YR i j = cell f i j + cell f_dy i j * dx / 2.
Proof.
  intros Hf Hx Hy Hi Hj. unfold extrapolate. cbv zeta.
  assert (Hj' : (neighbor j 1 m < m)%nat) by (apply neighbor_lt; lia).
  assert (Hi' : (neighbor i 1 n < n)%nat) by (apply neighbor_lt; lia).
  repeat split.
  - rewrite (cell_roll_R_aX n m) by shapes. cells n m. reflexivity.
  - cells n m. reflexivity.
  - rewrite (cell_roll_R_aY n m) by shapes. cells n m. reflexivity.
  - cells n m. reflexivity.
Qed.

Lemma extrapolate_cells_witness :
  let '(f_XL, f_XR, f_YL, f_YR) :=
    extrapolate [[1; 2; 4]; [8; 16; 32]] [[1; 0; 0]; [0; 0; 0]]
                [[0; 0; 0]; [0; 0; 3]] 2 in
  cell f_XL 0 2 = 1 - 1 * 2 / 2 /\
  cell f_XR 0 2 = 4 + 0 * 2 / 2 /\
  cell f_YL 0 2 = 32 - 3 * 2 / 2 /\
  cell f_YR 0 2 = 4 + 0 * 2 / 2.
Proof.
  apply (extrapolate_cells 2 3 [[1; 2; 4]; [8; 16; 32]]
           [[1; 0; 0]; [0; 0; 0]] [[0; 0; 0]; [0; 0; 3]] 2 0 2);
    try lia; (split; [reflexivity | repeat constructor]).
Defined.

(** ** The flux-divergence update, cell by cell *)

Lemma cell_apply_flux n m F fX fY dx dt i j :
  shape n m F -> shape n m fX -> shape n m fY ->
  (i < n)%nat -> (j < m)%nat ->
  cell (apply_flux F fX fY dx dt) i j
  = cell F i j
    - dt * dx * (cell fX i j - cell fX i (neighbor j (-1) m))
    - dt * dx * (cell fY i j - cell fY (neighbor i (-1) n) j).
Proof.
  intros HF HX HY Hi Hj. unfold apply_flux. cbv zeta. cells n m.
  rewrite (cell_roll_L_aX n m), (cell_roll_L_aY n m) by assumption.
  ring.
Qed.

(** X2.  [apply_flux] changes the value of a cell by the flux that enters
    through its two upwind faces minus the flux that leaves through its own
    two faces, each times [dt*dx]: the entering fluxes are those of the
    cells [j-1] (x) and [i-1] (y), periodically. *)
Theorem apply_flux_cells n m F fX fY dx dt i j :
  shape n m F -> shape n m fX -> shape n m fY ->
  (i < n)%nat -> (j < m)%nat ->
  cell (apply_flux F fX fY dx dt) i j
  = cell F i j
    - dt * dx * (cell fX i j - cell fX i (neighbor j (-1) m))
    - dt * dx * (cell fY i j - cell fY (neighbor i (-1) n) j).
Proof. apply cell_apply_flux. Qed.

Lemma apply_flux_cells_witness :
  cell (apply_flux [[1; 2]; [3; 4]] [[5; 6]; [7; 8]] [[9; 10]; [11; 12]] 2 3)
       0 0
  = 1 - 3 * 2 * (5 - 6) - 3 * 2 * (9 - 11).
Proof.
  apply (apply_flux_cells 2 2 [[1; 2]; [3; 4]] [[5; 6]; [7; 8]]
           [[9; 10]; [11; 12]] 2 3 0 0);
    try lia; (split; [reflexivity | repeat constructor]).
Defined.

(** ** Gradients sum to zero *)

Lemma list_sum_sub a b :
  length a = length b ->
  list_sum (zip_with Rminus a b) = list_sum a - list_sum b.
Proof.
  revert b. induction a as [|x a IH]; intros [|y b] H; simpl in *;
    try discriminate; [lra|].
  rewrite IH by lia. lra.
Qed.

Lemma np_sum_sub n m A B :
  shape n m A -> shape n m B -> np_sum (A .- B) = np_sum A - np_sum B.
Proof.
  unfold np_sum, mmap2, shape. revert n B.
  induction A as [|a A IH]; intros n [|b B] [Hn HA] [Hn' HB]; simpl in *;
    subst; try discriminate; [lra|].
  inversion HA; inversion HB; subst.
  rewrite (IH (length A) B) by auto.
  rewrite list_sum_sub by congruence. lra.
Qed.

Lemma list_sum_div c l : list_sum (map (fun x => x / c) l) = list_sum l / c.
Proof. induction l; simpl; [unfold Rdiv; ring|]. rewrite IHl. unfold Rdiv. ring. Qed.

Lemma np_sum_div c A : np_sum (A :/ c) = np_sum A / c.
Proof.
  unfold np_sum, mmap. induction A as [|row A IH]; simpl;
    [unfold Rdiv; ring|].
  rewrite IH, list_sum_div. unfold Rdiv. ring.
Qed.

(** X3.  Over the periodic grid both gradient arrays of any field sum to
    zero: the central differences telescope. *)
Theorem grad_sum_zero n m f dx :
  shape n m f ->
  let '(f_dx, f_dy) := grad f dx in
  np_sum f_dx = 0 /\ np_sum f_dy = 0.
Proof.
  intros Hf. unfold grad. cbv zeta.
  rewrite !np_sum_div, !(np_sum_sub n m) by shapes.
  rewrite !np_sum_roll. unfold Rdiv. split; ring.
Qed.

Lemma grad_sum_zero_witness :
  let '(f_dx, f_dy) := grad [[1; 2; 4]; [8; 16; 32]] 3 in
  np_sum f_dx = 0 /\ np_sum f_dy = 0.
Proof.
  apply (grad_sum_zero 2 3 [[1; 2; 4]; [8; 16; 32]] 3).
  split; [reflexivity | repeat constructor].
Defined.

(** ** Conserved variables from primitive ones *)

(** X4.  The other round trip: for mass, momentum fields of one shape with
    the mass non-zero in every cell and a non-zero cell volume, converting
    to primitive variables and back returns the conserved fields. *)
Theorem conserved_of_primitive n m mass px py V :
  shape n m mass -> shape n m px -> shape n m py ->
  all_cells (fun x => x <> 0) mass -> V <> 0 ->
  let '(rho, vx, vy) := primitive_variables mass px py V in
  conserved_variables rho vx vy V = (mass, px, py).
Proof.
  intros Hm Hx Hy Hnz HV.
  unfold conserved_variables, primitive_variables.
  assert (Hcell : forall i j, (i < n)%nat -> (j < m)%nat -> cell mass i j <> 0).
  { intros i j Hi Hj.
    apply (all_cells_cell (fun x => x <> 0) n m mass i j); assumption. }
  f_equal; [f_equal|].
  - apply (matrix_ext n m); shapes.
    intros i j Hi Hj. cells n m. field. assumption.
  - apply (matrix_ext n m); shapes.
    intros i j Hi Hj. cells n m. specialize (Hcell i j Hi Hj). field. auto.
  - apply (matrix_ext n m); shapes.
    intros i j Hi Hj. cells n m. specialize (Hcell i j Hi Hj). field. auto.
Qed.

Lemma conserved_of_primitive_witness :
  let '(rho, vx, vy) := primitive_variables [[6]] [[30]] [[42]] 3 in
  conserved_variables rho vx vy 3 = ([[6]], [[30]], [[42]]).
Proof.
  apply (conserved_of_primitive 1 1 [[6]] [[30]] [[42]] 3);
    try apply shape_1x1; try lra.
  repeat constructor. lra.
Defined.

(** ** The Riemann solver: consistency and mirror symmetry *)

(** X5.  Consistency of the numerical flux: where the left and the right
    state are the same state with non-zero density [rho], normal velocity
    [vn] and tangential velocity [vt], [get_flux] returns the physical
    isothermal Euler fluxes [rho*vn], [rho*vn^2 + rho] and [rho*vn*vt]; the
    diffusive term vanishes. *)
Theorem get_flux_consistent n m rho vn vt i j :
  shape n m rho -> shape n m vn -> shape n m vt ->
  (i < n)%nat -> (j < m)%nat -> cell rho i j <> 0 ->
  let '(flux_Mass, flux_Momn, flux_Momt) := get_flux rho rho vn vn vt vt in
  cell flux_Mass i j = cell rho i j * cell vn i j /\
  cell flux_Momn i j = cell rho i j * cell vn i j ^ 2 + cell rho i j /\
  cell flux_Momt i j = cell rho i j * cell vn i j * cell vt i j.
Proof.
  intros Hr Hn Ht Hi Hj Hnz.
  pose proof (get_flux_cells n m rho rho vn vn vt vt i j
                Hr Hr Hn Hn Ht Ht Hi Hj) as H.
  cbv zeta in H.
  destruct (get_flux rho rho vn vn vt vt) as [[fm fn] ft].
  cbn [fst snd] in H. destruct H as (-> & -> & ->).
  unfold rusanov_mass, rusanov_momn, rusanov_momt, momn_star, momt_star,
    P_star, rho_star, signal_speed, interface_at.
  cbn [rhoL rhoR vnL vnR vtL vtR].
  set (r := cell rho i j) in *. set (u := cell vn i j). set (w := cell vt i j).
  set (C := Rmax (1 + Rabs u) (1 + Rabs u)).
  replace (0.5 * (r * u + r * u)) with (r * u) by lra.
  replace (0.5 * (r * w + r * w)) with (r * w) by lra.
  replace (0.5 * (r + r)) with r by lra.
  replace (r - r) with 0 by ring.
  replace (r * u - r * u) with 0 by ring.
  replace (r * w - r * w) with 0 by ring.
  repeat split; field; assumption.
Qed.

Lemma get_flux_consistent_witness :
  let '(flux_Mass, flux_Momn, flux_Momt) :=
    get_flux [[2]] [[2]] [[3]] [[3]] [[5]] [[5]] in
  cell flux_Mass 0 0 = 2 * 3 /\
  cell flux_Momn 0 0 = 2 * 3 ^ 2 + 2 /\
  cell flux_Momt 0 0 = 2 * 3 * 5.
Proof.
  apply (get_flux_consistent 1 1 [[2]] [[3]] [[5]] 0 0);
    try apply shape_1x1; try lia.
  cbn. lra.
Defined.

Lemma rusanov_mirror (s : Interface) :
  rusanov_mass (mirror s) = - rusanov_mass s /\
  rusanov_momn (mirror s) = rusanov_momn s /\
  rusanov_momt (mirror s) = - rusanov_momt s.
Proof.
  unfold rusanov_mass, rusanov_momn, rusanov_momt, momn_star, momt_star,
    P_star, rho_star, signal_speed, mirror.
  cbn [rhoL rhoR vnL vnR vtL vtR].
  rewrite !Rabs_Ropp, (Rmax_comm (1 + Rabs (vnR s))).
  set (C := Rmax (1 + Rabs (vnL s)) (1 + Rabs (vnR s))).
  set (h := 0.5).
  replace (h * (rhoR s + rhoL s)) with (h * (rhoL s + rhoR s)) by ring.
  set (d := h * (rhoL s + rhoR s)).
  unfold Rdiv. repeat split; ring.
Qed.

(** X6.  Mirror symmetry of the numerical flux: exchanging the left and
    right states and reversing the normal velocities reverses the mass flux
    and the tangential-momentum flux and keeps the normal-momentum flux. *)
Theorem get_flux_mirror n m rho_L rho_R vn_L vn_R vt_L vt_R :
  shape n m rho_L -> shape n m rho_R ->
  shape n m vn_L -> shape n m vn_R ->
  shape n m vt_L -> shape n m vt_R ->
  let '(flux_Mass, flux_Momn, flux_Momt) :=
    get_flux rho_L rho_R vn_L vn_R vt_L vt_R in
  get_flux rho_R rho_L (mneg vn_R) (mneg vn_L) vt_R vt_L
  = (mneg flux_Mass, flux_Momn, mneg flux_Momt).
Proof.
  intros H1 H2 H3 H4 H5 H6.
  pose proof (shape_get_flux n m rho_L rho_R vn_L vn_R vt_L vt_R
                H1 H2 H3 H4 H5 H6) as Hs.
  assert (H3' : shape n m (mneg vn_L)) by (unfold mneg; shapes).
  assert (H4' : shape n m (mneg vn_R)) by (unfold mneg; shapes).
  pose proof (shape_get_flux n m rho_R rho_L (mneg vn_R) (mneg vn_L) vt_R vt_L
                H2 H1 H4' H3' H6 H5) as Hs'.
  assert (Hc : forall i j, (i < n)%nat -> (j < m)%nat ->
            let out := get_flux rho_L rho_R vn_L vn_R vt_L vt_R in
            let out' := get_flux rho_R rho_L (mneg vn_R) (mneg vn_L) vt_R vt_L in
            cell (fst (fst out')) i j = - cell (fst (fst out)) i j /\
            cell (snd (fst out')) i j = cell (snd (fst out)) i j /\
            cell (snd out') i j = - cell (snd out) i j).
  { intros i j Hi Hj.
    pose proof (get_flux_cells n m rho_L rho_R vn_L vn_R vt_L vt_R i j
                  H1 H2 H3 H4 H5 H6 Hi Hj) as (Ea & Eb & Ec).
    pose proof (get_flux_cells n m rho_R rho_L (mneg vn_R) (mneg vn_L)
                  vt_R vt_L i j H2 H1 H4' H3' H6 H5 Hi Hj) as (Ea' & Eb' & Ec').
    cbv zeta. rewrite Ea, Eb, Ec, Ea', Eb', Ec'.
    replace (interface_at rho_R rho_L (mneg vn_R) (mneg vn_L) vt_R vt_L i j)
      with (mirror (interface_at rho_L rho_R vn_L vn_R vt_L vt_R i j)).
    - apply rusanov_mirror.
    - unfold mirror, interface_at, mneg.
      cbn [rhoL rhoR vnL vnR vtL vtR].
      now rewrite !(cell_mmap _ n m) by assumption. }
  cbv zeta in Hc.
  destruct (get_flux rho_L rho_R vn_L vn_R vt_L vt_R) as [[fm fn] ft].
  destruct (get_flux rho_R rho_L (mneg vn_R) (mneg vn_L) vt_R vt_L)
    as [[fm' fn'] ft'].
  cbn [fst snd] in Hc.
  destruct Hs as (? & ? & ?), Hs' as (? & ? & ?).
  f_equal; [f_equal|]; apply (matrix_ext n m); unfold mneg; shapes;
    intros i j Hi Hj; destruct (Hc i j Hi Hj) as (Ea & Eb & Ec);
    rewrite ?(cell_mmap _ n m) by assumption; assumption.
Qed.

Lemma get_flux_mirror_witness :
  let '(flux_Mass, flux_Momn, flux_Momt) :=
    get_flux [[1]] [[2]] [[3]] [[4]] [[5]] [[6]] in
  get_flux [[2]] [[1]] (mneg [[4]]) (mneg [[3]]) [[6]] [[5]]
  = (mneg flux_Mass, flux_Momn, mneg flux_Momt).
Proof.
  apply (get_flux_mirror 1 1 [[1]] [[2]] [[3]] [[4]] [[5]] [[6]]);
    apply shape_1x1.
Defined.

(* ================================================================= *)
(** * Further properties of the loop *)

(** ** When a pass raises *)

Lemma list_min_nonempty l : l <> [] -> exists x, list_min l = Some x.
Proof.
  destruct l as [|x l]; [congruence|]. intros _. simpl.
  destruct (list_min l); eauto.
Qed.


Lemma shape_cfl_argument n m p vx vy :
  shape n m vx -> shape n m vy ->
  shape n m (dx p /: (1 +: np_sqrt (msq vx .+ msq vy))).
Proof. intros. unfold np_sqrt, msq. shapes. Qed.

Lemma cfl_dt_Ok n m p vx vy :
  shape n m vx -> shape n m vy -> (0 < n)%nat -> (0 < m)%nat ->
  exists dt, cfl_dt p vx vy = Ok dt.
Proof.
  intros Hvx Hvy Hn Hm. unfold cfl_dt, np_min.
  destruct (list_min_nonempty _
              (concat_nonempty n m _ (shape_cfl_argument n m p vx vy Hvx Hvy)
                 Hn Hm)) as [x ->].
  cbn [of_option bind]. eauto.
Qed.


Lemma body_Ok_nonempty n m p s :
  wf_state n m s -> (0 < n)%nat -> (0 < m)%nat ->
  exists s' fr, body p s = Ok (s', fr).
Proof.
  intros Hs Hn Hm.
  destruct (shape_primitives n m p s Hs) as (_ & Hvx & Hvy).
  destruct (cfl_dt_Ok n m p _ _ Hvx Hvy Hn Hm) as [dt Hdt].
  rewrite body_eq. unfold get_time_step. rewrite Hdt. cbn [bind].
  destruct (Rgt_dec _ _); cbn [bind fst snd];
    destruct (advance p s _ _) as [s' fr]; eauto.
Qed.



(** ** Conservation along a run *)

Lemma body_conserves n m p s s' fr :
  wf_state n m s -> body p s = Ok (s', fr) ->
  np_sum (Mass s') = np_sum (Mass s) /\
  np_sum (Momx s') = np_sum (Momx s) /\
  np_sum (Momy s') = np_sum (Momy s).
Proof.
  intros Hs Hb. apply body_Ok in Hb.
  destruct Hb as (dt & plot & _ & Hadv).
  pose proof (shape_fluxes_of n m p s dt Hs) as Hf.
  destruct Hs as (? & ? & ?), Hf as (? & ? & ? & ? & ? & ?).
  apply (f_equal fst) in Hadv. cbn [fst] in Hadv. subst s'.
  unfold advance. cbv zeta. cbn [fst Mass Momx Momy].
  split; [|split]; apply (apply_flux_sum n m); assumption.
Qed.

Lemma run_keeps_totals n m p fuel s s' frs :
  wf_state n m s -> run p fuel s = Ok (s', frs) ->
  wf_state n m s' /\
  np_sum (Mass s') = np_sum (Mass s) /\
  np_sum (Momx s') = np_sum (Momx s) /\
  np_sum (Momy s') = np_sum (Momy s).
Proof.
  revert s s' frs. induction fuel as [|fuel IH]; intros s s' frs Hs Hrun;
    cbn [run] in Hrun.
  - injection Hrun as <- <-. auto.
  - destruct (Rlt_dec (t s) (tEnd p)) as [_|_].
    + destruct (body p s) as [[s1 fr]|e] eqn:Hb; cbn [bind fst snd] in Hrun;
        [|discriminate].
      destruct (run p fuel s1) as [[s2 frs2]|e] eqn:Hr;
        cbn [bind fst snd] in Hrun; [|discriminate].
      injection Hrun as <- <-.
      pose proof (wf_body n m p s s1 fr Hs Hb) as Hs1.
      destruct (body_conserves n m p s s1 fr Hs Hb) as (E1 & E2 & E3).
      destruct (IH s1 s2 frs2 Hs1 Hr) as (Hs2 & F1 & F2 & F3).
      split; [assumption|]. repeat split; congruence.
    + injection Hrun as <- <-. auto.
Qed.

(** X8.  Along any number of passes of the loop the three fields keep their
    shape, and total mass, total x-momentum and total y-momentum keep the
    values they had when the loop was entered. *)
Theorem run_conserves n m p fuel s s' frs :
  wf_state n m s -> run p fuel s = Ok (s', frs) ->
  wf_state n m s' /\
  np_sum (Mass s') = np_sum (Mass s) /\
  np_sum (Momx s') = np_sum (Momx s) /\
  np_sum (Momy s') = np_sum (Momy s).
Proof. apply run_keeps_totals. Qed.

Lemma run_conserves_witness :
  let p := tie_params in
  let s := uniform_state p 2 2 0 1 in
  let s' := uniform_state p 2 2 1 4 in
  wf_state 2 2 s' /\
  np_sum (Mass s') = np_sum (Mass s) /\
  np_sum (Momx s') = np_sum (Momx s) /\
  np_sum (Momy s') = np_sum (Momy s).
Proof.
  apply (run_conserves 2 2 tie_params 8 (uniform_state tie_params 2 2 0 1)
           (uniform_state tie_params 2 2 1 4)
           [mkFrame 0.25 (const_matrix 2 2 1);
            mkFrame 0.5 (const_matrix 2 2 1);
            mkFrame 0.75 (const_matrix 2 2 1)]).
  - apply wf_uniform.
  - exact run_tie.
Defined.

(** ** The loop ends at [tEnd] *)





(** ** The size of the CFL step *)

(** X10.  With a positive Courant factor and [dx > 0], on a non-empty grid
    the CFL time step is positive and at most [courant_fac * dx], whatever
    the velocities are. *)
Theorem cfl_dt_bounds p n m vx vy :
  0 < courant_fac p -> 0 < dx p -> (0 < n)%nat -> (0 < m)%nat ->
  shape n m vx -> shape n m vy ->
  exists dt, cfl_dt p vx vy = Ok dt /\ 0 < dt <= courant_fac p * dx p.
Proof.
  intros Hc Hdx Hn Hm Hvx Hvy.
  destruct (cfl_dt_max_speed p n m vx vy Hdx Hn Hm Hvx Hvy)
    as (M & _ & HM & ->).
  eexists. split; [reflexivity|].
  assert (H1 : 0 < dx p / (1 + M)) by (apply Rdiv_lt_0_compat; lra).
  assert (H2 : dx p / (1 + M) <= dx p).
  { apply Rmult_le_reg_r with (1 + M); [lra|].
    unfold Rdiv. rewrite Rmult_assoc, Rinv_l by lra. nra. }
  split; [now apply Rmult_lt_0_compat | apply Rmult_le_compat_l; lra].
Qed.

Lemma cfl_dt_bounds_witness :
  exists dt, cfl_dt main_params [[3]] [[4]] = Ok dt /\
             0 < dt <= courant_fac main_params * dx main_params.
Proof.
  apply (cfl_dt_bounds main_params 1 1 [[3]] [[4]]);
    try lia; try apply shape_1x1.
  - cbn. lra.
  - unfold dx. cbn. lra.
Defined.

(** ** The clock never runs back *)



(** ** Translation invariance of a run *)

Lemma body_commutes_shift n m p k ax s :
  wf_state n m s ->
  body p (shift_state k ax s) =
  match body p s with
  | Ok (s', fr) => Ok (shift_state k ax s', option_map (shift_frame k ax) fr)
  | Raise e => Raise e
  end.
Proof.
  intros Hs.
  destruct (shape_primitives n m p s Hs) as (Hrho & Hvx & Hvy).
  rewrite !body_eq. unfold vx_of, vy_of in *.
  rewrite (primitives_shift n m) by assumption.
  destruct (primitives p s) as [[rho vx] vy] eqn:Hprim.
  cbn [shift3 fst snd] in *.
  unfold get_time_step. rewrite (cfl_dt_shift n m) by assumption.
  cbn [shift_state t outputCount].
  destruct (cfl_dt p vx vy) as [dt|e]; cbn [bind]; [|reflexivity].
  destruct (Rgt_dec _ _); cbn [bind fst snd];
    rewrite (advance_shift n m) by assumption;
    destruct (advance p s _ _) as [s' fr]; reflexivity.
Qed.

(** X12.  The whole loop commutes with a cyclic translation of the grid:
    running any number of passes from the translated state gives the
    translated final state and the translated frames, in the same number
    and at the same times, and raises exactly when the original run does. *)
Theorem run_shift n m p k ax fuel s :
  wf_state n m s ->
  run p fuel (shift_state k ax s) =
  match run p fuel s with
  | Ok (s', frs) => Ok (shift_state k ax s', map (shift_frame k ax) frs)
  | Raise e => Raise e
  end.
Proof.
  revert s. induction fuel as [|fuel IH]; intros s Hs; cbn [run].
  - reflexivity.
  - cbn [shift_state t].
    destruct (Rlt_dec (t s) (tEnd p)) as [_|_]; [|reflexivity].
    rewrite (body_commutes_shift n m) by assumption.
    destruct (body p s) as [[s1 fr]|e] eqn:Hb; cbn [bind fst snd];
      [|reflexivity].
    rewrite IH by (now apply (wf_body n m p s s1 fr)).
    destruct (run p fuel s1) as [[s2 frs]|e]; cbn [bind fst snd];
      [|reflexivity].
    destruct fr; reflexivity.
Qed.

Lemma run_shift_witness :
  let s := mkState [[1; 2]; [3; 4]] [[0; 1]; [1; 0]] [[2; 0]; [0; 2]] 0 1 in
  run main_params 3 (shift_state 1 aX s) =
  match run main_params 3 s with
  | Ok (s', frs) => Ok (shift_state 1 aX s', map (shift_frame 1 aX) frs)
  | Raise e => Raise e
  end.
Proof.
  apply (run_shift 2 2 main_params 1 aX 3
           (mkState [[1; 2]; [3; 4]] [[0; 1]; [1; 0]] [[2; 0]; [0; 2]] 0 1)).
  unfold wf_state, shape. cbn. repeat split; repeat constructor.
Defined.

(* ================================================================= *)
(** * Further properties of the set-up *)

(** ** Cell centres *)

Lemma IZR_to_nat z : (0 <= z)%Z -> INR (Z.to_nat z) = IZR z.
Proof. intros H. now rewrite INR_IZR_INZ, Z2Nat.id. Qed.

Lemma Lbox_dx p : (0 < N p)%Z -> Lbox p = IZR (N p) * dx p.
Proof.
  intros HN. unfold dx. assert (IZR (N p) <> 0) by (apply not_0_IZR; lia).
  field. assumption.
Qed.

Lemma nth_map_seq (f : nat -> R) k i d :
  (i < k)%nat -> nth i (map f (seq 0 k)) d = f i.
Proof.
  intros Hi. rewrite (nth_indep _ d (f 0%nat))
    by (now rewrite length_map, length_seq).
  now rewrite map_nth, seq_nth.
Qed.

Lemma linspace_centres p :
  ((0 < N p)%Z ->
     exists xlin,
       np_linspace (0.5 * dx p) (Lbox p - 0.5 * dx p) (N p) = Ok xlin /\
       length xlin = Z.to_nat (N p) /\
       forall i, (i < Z.to_nat (N p))%nat ->
                 nth i xlin 0 = (INR i + 0.5) * dx p) /\
  ((N p < 0)%Z ->
     np_linspace (0.5 * dx p) (Lbox p - 0.5 * dx p) (N p) = Raise ValueError).
Proof.
  unfold np_linspace. split; intros HN.
  - destruct (N p <? 0)%Z eqn:E; [apply Z.ltb_lt in E; lia|].
    eexists. split; [reflexivity|]. split.
    + now rewrite length_map, length_seq.
    + intros i Hi.
      rewrite nth_map_seq by assumption.
      destruct (Z.eq_dec (N p) 1) as [E1|NE1].
      * rewrite E1 in Hi. assert (i = 0)%nat by lia. subst i.
        cbn [INR]. lra.
      * assert (IZR (N p) - 1 <> 0).
        { replace 1 with (IZR 1) by reflexivity. rewrite <- minus_IZR.
          apply not_0_IZR. lia. }
        rewrite (Lbox_dx p HN). replace 0.5 with (/ 2) by lra.
        field. assumption.
  - destruct (N p <? 0)%Z eqn:E; [reflexivity|]. apply Z.ltb_ge in E. lia.
Qed.

(** X13.  For [N > 0] the mesh line [xlin] has [N] points and its point
    number [i] is the centre of cell [i], [(i + 0.5) * dx]; for [N < 0]
    [np.linspace] raises [ValueError]. *)
Theorem xlin_cell_centres p :
  ((0 < N p)%Z ->
     exists xlin,
       np_linspace (0.5 * dx p) (Lbox p - 0.5 * dx p) (N p) = Ok xlin /\
       length xlin = Z.to_nat (N p) /\
       forall i, (i < Z.to_nat (N p))%nat ->
                 nth i xlin 0 = (INR i + 0.5) * dx p) /\
  ((N p < 0)%Z ->
     np_linspace (0.5 * dx p) (Lbox p - 0.5 * dx p) (N p) = Raise ValueError).
Proof. apply linspace_centres. Qed.

(** ** The initial state *)

Lemma setup_eq p xlin :
  N p <> 0%Z ->
  np_linspace (0.5 * dx p) (Lbox p - 0.5 * dx p) (N p) = Ok xlin ->
  let X := repeat xlin (length xlin) in
  let Y := map (fun yi => repeat yi (length xlin)) xlin in
  let rho := 0 *: X :+ 1 in
  let vx := 0.5 *: np_sin ((2 * PI) *: Y) in
  let vy := 0.1 *: np_sin ((4 * PI) *: X) .* msq (np_cos ((2 * PI) *: Y)) in
  setup p = Ok (mkState (rho :* vol p) (rho :* vol p .* vx)
                        (rho :* vol p .* vy) 0 1).
Proof.
  intros HN Hlin. unfold setup.
  destruct (N p =? 0)%Z eqn:E0; [apply Z.eqb_eq in E0; contradiction|].
  fold (dx p). rewrite Hlin. reflexivity.
Qed.

Lemma cell_meshgrid_X (xlin : list R) i j :
  (i < length xlin)%nat ->
  cell (repeat xlin (length xlin)) i j = nth j xlin 0.
Proof. intros Hi. unfold cell. now rewrite nth_repeat_lt. Qed.

Lemma cell_meshgrid_Y (xlin : list R) i j :
  (i < length xlin)%nat -> (j < length xlin)%nat ->
  cell (map (fun yi => repeat yi (length xlin)) xlin) i j = nth i xlin 0.
Proof.
  intros Hi Hj. unfold cell.
  rewrite (nth_indep _ [] ((fun yi => repeat yi (length xlin)) 0))
    by (now rewrite length_map).
  rewrite (map_nth (fun yi => repeat yi (length xlin))).
  now rewrite nth_repeat_lt.
Qed.

Lemma shape_meshgrid_X (xlin : list R) :
  shape (length xlin) (length xlin) (repeat xlin (length xlin)).
Proof. apply shape_repeat_row. Qed.

Lemma shape_meshgrid_Y (xlin : list R) :
  shape (length xlin) (length xlin)
        (map (fun yi => repeat yi (length xlin)) xlin).
Proof.
  split; [apply length_map|].
  apply Forall_map, Forall_forall. intros yi _. apply repeat_length.
Qed.

(** The initial conserved fields, cell by cell. *)
Lemma setup_cells p :
  (0 < N p)%Z ->
  exists s,
    setup p = Ok s /\ t s = 0 /\ outputCount s = 1%Z /\
    wf_state (Z.to_nat (N p)) (Z.to_nat (N p)) s /\
    forall i j, (i < Z.to_nat (N p))%nat -> (j < Z.to_nat (N p))%nat ->
      let x := (INR j + 0.5) * dx p in
      let y := (INR i + 0.5) * dx p in
      cell (Mass s) i j = vol p /\
      cell (Momx s) i j = vol p * (0.5 * sin (2 * PI * y)) /\
      cell (Momy s) i j
        = vol p * (0.1 * sin (4 * PI * x) * cos (2 * PI * y) ^ 2).
Proof.
  intros HN.
  destruct (linspace_centres p) as [Hlin _].
  destruct (Hlin HN) as (xlin & Hxlin & Hlen & Hnth).
  assert (HN0 : N p <> 0%Z) by lia.
  pose proof (setup_eq p xlin HN0 Hxlin) as Hsetup. cbv zeta in Hsetup.
  pose proof (shape_meshgrid_X xlin) as HX.
  pose proof (shape_meshgrid_Y xlin) as HY.
  set (X := repeat xlin (length xlin)) in *.
  set (Y := map (fun yi => repeat yi (length xlin)) xlin) in *.
  rewrite Hlen in HX, HY. set (n := Z.to_nat (N p)) in *.
  eexists. split; [exact Hsetup|]. cbn [t outputCount Mass Momx Momy].
  split; [reflexivity|]. split; [reflexivity|]. split.
  - unfold wf_state, np_sin, np_cos, msq. cbn [Mass Momx Momy].
    split; [|split]; shapes.
  - intros i j Hi Hj. cbv zeta. unfold np_sin, np_cos, msq. cells n n.
    unfold X, Y.
    rewrite !cell_meshgrid_X, !cell_meshgrid_Y by (rewrite Hlen; assumption).
    rewrite !Hnth by assumption.
    set (h := 0.5). set (q := 0.1).
    repeat split; ring.
Qed.

(** X14.  For [N > 0] the set-up samples the initial condition at the cell
    centres with x along the second index and y along the first: in cell
    [(i, j)] the mass is the cell volume (density 1), the x-momentum is the
    volume times [0.5*sin(2*pi*y_i)] and the y-momentum is the volume times
    [0.1*sin(4*pi*x_j)*cos(2*pi*y_i)^2], with [x_j = (j+0.5)*dx] and
    [y_i = (i+0.5)*dx]. *)
Theorem initial_fields p i j :
  (0 < N p)%Z -> (i < Z.to_nat (N p))%nat -> (j < Z.to_nat (N p))%nat ->
  exists s,
    setup p = Ok s /\
    let x := (INR j + 0.5) * dx p in
    let y := (INR i + 0.5) * dx p in
    cell (Mass s) i j = vol p /\
    cell (Momx s) i j = vol p * (0.5 * sin (2 * PI * y)) /\
    cell (Momy s) i j
      = vol p * (0.1 * sin (4 * PI * x) * cos (2 * PI * y) ^ 2).
Proof.
  intros HN Hi Hj.
  destruct (setup_cells p HN) as (s & Hs & _ & _ & _ & Hcells).
  exists s. split; [assumption|]. now apply Hcells.
Qed.

Lemma initial_fields_witness :
  exists s,
    setup main_params = Ok s /\
    let x := (INR 7 + 0.5) * dx main_params in
    let y := (INR 3 + 0.5) * dx main_params in
    cell (Mass s) 3 7 = vol main_params /\
    cell (Momx s) 3 7 = vol main_params * (0.5 * sin (2 * PI * y)) /\
    cell (Momy s) 3 7
      = vol main_params * (0.1 * sin (4 * PI * x) * cos (2 * PI * y) ^ 2).
Proof.
  apply (initial_fields main_params 3 7).
  - reflexivity.
  - cbn. lia.
  - cbn. lia.
Defined.

(** ** The whole simulation *)

Lemma list_sum_repeat c k : list_sum (repeat c k) = INR k * c.
Proof.
  induction k as [|k IH]; [simpl; ring|].
  rewrite S_INR. cbn [repeat list_sum fold_right]. fold (list_sum (repeat c k)).
  rewrite IH. ring.
Qed.

Lemma np_sum_const n m c : np_sum (const_matrix n m c) = INR n * INR m * c.
Proof.
  rewrite np_sum_concat, concat_const, list_sum_repeat, mult_INR. ring.
Qed.

Lemma run_Ok n m p fuel :
  (0 < n)%nat -> (0 < m)%nat ->
  forall s, wf_state n m s -> exists s' frs, run p fuel s = Ok (s', frs).
Proof.
  intros Hn Hm. induction fuel as [|fuel IH]; intros s Hs; cbn [run].
  - eauto.
  - destruct (Rlt_dec (t s) (tEnd p)) as [_|_]; [|eauto].
    destruct (body_Ok_nonempty n m p s Hs Hn Hm) as (s1 & fr & Hb).
    rewrite Hb. cbn [bind fst snd].
    destruct (IH s1 (wf_body n m p s s1 fr Hs Hb)) as (s2 & frs & ->).
    cbn [bind fst snd]. eauto.
Qed.



(** X16.  For every [N > 0] the total mass is the area of the box,
    [Lbox^2], when the loop is entered, and it is still [Lbox^2] after any
    number of passes. *)
Theorem simulate_total_mass p fuel s' frs :
  (0 < N p)%Z ->
  simulate p fuel = Ok (s', frs) ->
  np_sum (Mass s') = Lbox p ^ 2.
Proof.
  intros HN Hsim.
  destruct (setup_cells p HN) as (s & Hs & _ & _ & Hwf & Hcells).
  unfold simulate in Hsim. rewrite Hs in Hsim. cbn [bind] in Hsim.
  destruct (run_keeps_totals _ _ p fuel s s' frs Hwf Hsim) as (_ & -> & _).
  set (n := Z.to_nat (N p)) in *.
  assert (HM : Mass s = const_matrix n n (vol p)).
  { destruct Hwf as (HM & _).
    apply (matrix_ext n n); [assumption | apply shape_const |].
    intros i j Hi Hj. rewrite cell_const by assumption.
    now destruct (Hcells i j Hi Hj). }
  rewrite HM, np_sum_const. unfold n. rewrite IZR_to_nat by lia.
  unfold vol. rewrite (Lbox_dx p HN). ring.
Qed.

Lemma simulate_total_mass_witness :
  exists s' frs, main 10 = Ok (s', frs) /\ np_sum (Mass s') = 1 ^ 2.
Proof.
  destruct (setup_Ok main_params) as (s & Hs & _ & _ & Hwf); [reflexivity|].
  destruct (run_Ok 100 100 main_params 10) with (s := s)
    as (s' & frs & Hrun); [lia | lia | exact Hwf |].
  assert (Hmain : main 10 = Ok (s', frs)).
  { unfold main, simulate. rewrite Hs. exact Hrun. }
  exists s', frs. split; [exact Hmain|].
  apply (simulate_total_mass main_params 10 s' frs); [reflexivity|].
  exact Hmain.
Defined.

(* ================================================================= *)
(** * Exchange of the two axes *)

(** ** Transposition *)

Lemma nth_map_seq_gen {X : Type} (f : nat -> X) k i d :
  (i < k)%nat -> nth i (map f (seq 0 k)) d = f i.
Proof.
  intros Hi. rewrite (nth_indep _ d (f 0%nat))
    by (now rewrite length_map, length_seq).
  now rewrite map_nth, seq_nth.
Qed.

Lemma shape_transpose n m A : shape n m A -> shape m n (transpose m A).
Proof.
  intros [Hn _]. unfold transpose. split.
  - now rewrite length_map, length_seq.
  - apply Forall_map, Forall_forall. intros j _. now rewrite length_map.
Qed.

Lemma cell_transpose n m A i j :
  shape n m A -> (i < n)%nat -> (j < m)%nat ->
  cell (transpose m A) j i = cell A i j.
Proof.
  intros [Hn _] Hi Hj. unfold cell, transpose.
  rewrite nth_map_seq_gen by assumption.
  rewrite (nth_indep _ 0 ((fun row => nth j row 0) []))
    by (rewrite length_map; lia).
  now rewrite (map_nth (fun row => nth j row 0)).
Qed.

Lemma transpose_mmap f n m A :
  shape n m A -> transpose m (mmap f A) = mmap f (transpose m A).
Proof.
  intros HA. pose proof (shape_transpose n m A HA) as HT.
  apply (matrix_ext m n); [apply shape_transpose; shapes | shapes |].
  intros j i Hj Hi.
  rewrite (cell_transpose n m), (cell_mmap _ n m), (cell_mmap _ m n),
    (cell_transpose n m) by shapes.
  reflexivity.
Qed.

Lemma transpose_mmap2 f n m A B :
  shape n m A -> shape n m B ->
  transpose m (mmap2 f A B) = mmap2 f (transpose m A) (transpose m B).
Proof.
  intros HA HB.
  pose proof (shape_transpose n m A HA) as HTA.
  pose proof (shape_transpose n m B HB) as HTB.
  apply (matrix_ext m n); [apply shape_transpose; shapes | shapes |].
  intros j i Hj Hi.
  rewrite (cell_transpose n m), (cell_mmap2 _ n m), (cell_mmap2 _ m n),
    !(cell_transpose n m) by shapes.
  reflexivity.
Qed.

(** A roll along one axis of the transpose is the transpose of the roll
    along the other axis. *)
Lemma roll_transpose n m A :
  shape n m A ->
  np_roll (transpose m A) Dir.R aY = transpose m (np_roll A Dir.R aX) /\
  np_roll (transpose m A) Dir.L aY = transpose m (np_roll A Dir.L aX) /\
  np_roll (transpose m A) Dir.R aX = transpose m (np_roll A Dir.R aY) /\
  np_roll (transpose m A) Dir.L aX = transpose m (np_roll A Dir.L aY).
Proof.
  intros HA. pose proof (shape_transpose n m A HA) as HT.
  repeat split; apply (matrix_ext m n);
    try (apply shape_transpose; shapes); try shapes; intros j i Hj Hi;
    assert ((0 < m)%nat /\ (0 < n)%nat) as [Hm0 Hn0] by lia.
  - rewrite (cell_roll_R_aY m n), !(cell_transpose n m),
      (cell_roll_R_aX n m) by (shapes || (apply neighbor_lt; lia)).
    reflexivity.
  - rewrite (cell_roll_L_aY m n), !(cell_transpose n m),
      (cell_roll_L_aX n m) by (shapes || (apply neighbor_lt; lia)).
    reflexivity.
  - rewrite (cell_roll_R_aX m n), !(cell_transpose n m),
      (cell_roll_R_aY n m) by (shapes || (apply neighbor_lt; lia)).
    reflexivity.
  - rewrite (cell_roll_L_aX m n), !(cell_transpose n m),
      (cell_roll_L_aY n m) by (shapes || (apply neighbor_lt; lia)).
    reflexivity.
Qed.

Lemma roll_T_R_aY n m A :
  shape n m A ->
  np_roll (transpose m A) Dir.R aY = transpose m (np_roll A Dir.R aX).
Proof. intros H. apply (roll_transpose n m A H). Qed.

Lemma roll_T_L_aY n m A :
  shape n m A ->
  np_roll (transpose m A) Dir.L aY = transpose m (np_roll A Dir.L aX).
Proof. intros H. apply (roll_transpose n m A H). Qed.

Lemma roll_T_R_aX n m A :
  shape n m A ->
  np_roll (transpose m A) Dir.R aX = transpose m (np_roll A Dir.R aY).
Proof. intros H. apply (roll_transpose n m A H). Qed.

Lemma roll_T_L_aX n m A :
  shape n m A ->
  np_roll (transpose m A) Dir.L aX = transpose m (np_roll A Dir.L aY).
Proof. intros H. apply (roll_transpose n m A H). Qed.

(** Moves a transposition from the arguments of the elementwise operations
    and of the rolls of the code to their result. *)
Ltac pull_transpose n m :=
  repeat first
    [ rewrite (roll_T_R_aY n m) by shapes
    | rewrite (roll_T_L_aY n m) by shapes
    | rewrite (roll_T_R_aX n m) by shapes
    | rewrite (roll_T_L_aX n m) by shapes
    | rewrite <- (transpose_mmap _ n m) by shapes
    | rewrite <- (transpose_mmap2 _ n m) by shapes ].

Lemma primitive_variables_transpose n m mass px py V :
  shape n m mass -> shape n m px -> shape n m py ->
  primitive_variables (transpose m mass) (transpose m py) (transpose m px) V
  = let '(rho, vx, vy) := primitive_variables mass px py V in
    (transpose m rho, transpose m vy, transpose m vx).
Proof.
  intros. unfold primitive_variables. cbv zeta.
  pull_transpose n m. reflexivity.
Qed.

Lemma grad_transpose n m f dx :
  shape n m f ->
  grad (transpose m f) dx
  = (transpose m (snd (grad f dx)), transpose m (fst (grad f dx))).
Proof.
  intros. unfold grad. cbv zeta. cbn [fst snd].
  pull_transpose n m. reflexivity.
Qed.

Lemma extrapolate_transpose n m f f_dx f_dy dx :
  shape n m f -> shape n m f_dx -> shape n m f_dy ->
  extrapolate (transpose m f) (transpose m f_dy) (transpose m f_dx) dx
  = let '(f_XL, f_XR, f_YL, f_YR) := extrapolate f f_dx f_dy dx in
    (transpose m f_YL, transpose m f_YR, transpose m f_XL, transpose m f_XR).
Proof.
  intros. unfold extrapolate. cbv zeta.
  pull_transpose n m. reflexivity.
Qed.

Lemma get_flux_transpose n m rho_L rho_R vx_L vx_R vy_L vy_R :
  shape n m rho_L -> shape n m rho_R ->
  shape n m vx_L -> shape n m vx_R ->
  shape n m vy_L -> shape n m vy_R ->
  get_flux (transpose m rho_L) (transpose m rho_R) (transpose m vx_L)
           (transpose m vx_R) (transpose m vy_L) (transpose m vy_R)
  = let '(a, b, c) := get_flux rho_L rho_R vx_L vx_R vy_L vy_R in
    (transpose m a, transpose m b, transpose m c).
Proof.
  intros. unfold get_flux, msq, np_abs, np_maximum. cbv zeta.
  pull_transpose n m. reflexivity.
Qed.

Lemma apply_flux_transpose n m F fX fY dx dt :
  shape n m F -> shape n m fX -> shape n m fY ->
  apply_flux (transpose m F) (transpose m fY) (transpose m fX) dx dt
  = transpose m (apply_flux F fX fY dx dt).
Proof.
  intros HF HX HY.
  pose proof (shape_transpose n m F HF) as HTF.
  pose proof (shape_transpose n m fX HX) as HTX.
  pose proof (shape_transpose n m fY HY) as HTY.
  pose proof (shape_apply_flux n m F fX fY dx dt HF HX HY) as HA.
  apply (matrix_ext m n);
    [now apply shape_apply_flux | now apply shape_transpose |].
  intros j i Hj Hi.
  assert (Hi' : (neighbor i (-1) n < n)%nat) by (apply neighbor_lt; lia).
  assert (Hj' : (neighbor j (-1) m < m)%nat) by (apply neighbor_lt; lia).
  rewrite (cell_apply_flux m n) by assumption.
  rewrite !(cell_transpose n m) by assumption.
  rewrite (cell_apply_flux n m) by assumption.
  ring.
Qed.

(** The three predicted fields of the half step, with the roles of the
    axes exchanged. *)
Lemma predictor_transpose n m rho vx vy rho_dx rho_dy vx_dx vx_dy vy_dx vy_dy c :
  shape n m rho -> shape n m vx -> shape n m vy ->
  shape n m rho_dx -> shape n m rho_dy ->
  shape n m vx_dx -> shape n m vx_dy ->
  shape n m vy_dx -> shape n m vy_dy ->
  let T := transpose m in
  T rho .- c *: (T vy .* T rho_dy .+ T rho .* T vy_dy .+ T vx .* T rho_dx
                 .+ T rho .* T vx_dx)
  = T (rho .- c *: (vx .* rho_dx .+ rho .* vx_dx .+ vy .* rho_dy .+ rho .* vy_dy))
  /\
  T vy .- c *: (T vy .* T vy_dy .+ T vx .* T vy_dx .+ (1 /: T rho) .* T rho_dy)
  = T (vy .- c *: (vx .* vy_dx .+ vy .* vy_dy .+ (1 /: rho) .* rho_dy))
  /\
  T vx .- c *: (T vy .* T vx_dy .+ T vx .* T vx_dx .+ (1 /: T rho) .* T rho_dx)
  = T (vx .- c *: (vx .* vx_dx .+ vy .* vx_dy .+ (1 /: rho) .* rho_dx)).
Proof.
  intros Hr Hx Hy Hrx Hry Hxx Hxy Hyx Hyy T. subst T.
  pose proof (shape_transpose n m rho Hr).
  pose proof (shape_transpose n m vx Hx).
  pose proof (shape_transpose n m vy Hy).
  pose proof (shape_transpose n m rho_dx Hrx).
  pose proof (shape_transpose n m rho_dy Hry).
  pose proof (shape_transpose n m vx_dx Hxx).
  pose proof (shape_transpose n m vx_dy Hxy).
  pose proof (shape_transpose n m vy_dx Hyx).
  pose proof (shape_transpose n m vy_dy Hyy).
  repeat split; apply (matrix_ext m n);
    try (apply shape_transpose); shapes; intros j i Hj Hi;
    rewrite (cell_transpose n m) by shapes;
    cells m n; cells n m; rewrite !(cell_transpose n m) by assumption;
    unfold Rdiv; ring.
Qed.

(** ** The minimum over all cells does not see the transposition *)

Lemma list_min_le l x y : list_min l = Some x -> In y l -> x <= y.
Proof.
  revert x. induction l as [|z l IH]; simpl; [discriminate|].
  intros x Hx [<- | Hy].
  - destruct (list_min l) as [mn|]; injection Hx as <-;
      [apply Rmin_l | lra].
  - destruct (list_min l) as [mn|] eqn:E.
    2:{ destruct l as [|w l]; [contradiction|]. simpl in E.
        destruct (list_min l); discriminate. }
    injection Hx as <-.
    apply Rle_trans with mn; [apply Rmin_r | now apply IH].
Qed.

Lemma list_min_same_members l l' :
  (forall x, In x l <-> In x l') -> list_min l = list_min l'.
Proof.
  intros H.
  destruct (list_min l) as [a|] eqn:Ea, (list_min l') as [b|] eqn:Eb.
  - f_equal. apply Rle_antisym.
    + apply (list_min_le l a b Ea), H, list_min_In, Eb.
    + apply (list_min_le l' b a Eb), H, list_min_In, Ea.
  - apply list_min_In, H in Ea. destruct l'; [contradiction|].
    simpl in Eb. destruct (list_min l'); discriminate.
  - apply list_min_In, H in Eb. destruct l; [contradiction|].
    simpl in Ea. destruct (list_min l); discriminate.
  - reflexivity.
Qed.

Lemma In_concat_cell n m A x :
  shape n m A ->
  (In x (concat A) <->
   exists i j, (i < n)%nat /\ (j < m)%nat /\ x = cell A i j).
Proof.
  intros HA. rewrite in_concat. split.
  - intros (row & Hrow & Hx).
    destruct (In_nth A row [] Hrow) as (i & Hi & Ei).
    destruct (In_nth row x 0 Hx) as (j & Hj & Ej).
    destruct HA as [Hn Hm]. rewrite Forall_forall in Hm.
    rewrite (Hm row Hrow) in Hj. subst row.
    exists i, j. repeat split; try lia. unfold cell. now rewrite Ej.
  - intros (i & j & Hi & Hj & ->). exists (nth i A []).
    pose proof (shape_row n m A i HA Hi) as Hrow. destruct HA as [Hn _].
    split; [apply nth_In; lia|]. unfold cell. apply nth_In. lia.
Qed.

Lemma np_min_transpose n m A :
  shape n m A -> np_min (transpose m A) = np_min A.
Proof.
  intros HA. unfold np_min. apply list_min_same_members. intros x.
  rewrite (In_concat_cell m n) by (now apply shape_transpose).
  rewrite (In_concat_cell n m) by assumption.
  split.
  - intros (j & i & Hj & Hi & ->). exists i, j.
    rewrite (cell_transpose n m) by assumption. auto.
  - intros (i & j & Hi & Hj & ->). exists j, i.
    rewrite (cell_transpose n m) by assumption. auto.
Qed.

Lemma cfl_dt_transpose n m p vx vy :
  shape n m vx -> shape n m vy ->
  cfl_dt p (transpose m vy) (transpose m vx) = cfl_dt p vx vy.
Proof.
  intros Hx Hy. unfold cfl_dt.
  replace (dx p /: (1 +: np_sqrt (msq (transpose m vy) .+ msq (transpose m vx))))
    with (transpose m (dx p /: (1 +: np_sqrt (msq vx .+ msq vy)))).
  - rewrite (np_min_transpose n m); [reflexivity|].
    now apply shape_cfl_argument.
  - unfold msq, np_sqrt.
    rewrite (transpose_mmap _ n m), (transpose_mmap _ n m),
      (transpose_mmap _ n m), (transpose_mmap2 _ n m),
      !(transpose_mmap _ n m) by shapes.
    do 3 f_equal.
    pose proof (shape_transpose n m vx Hx). pose proof (shape_transpose n m vy Hy).
    apply (matrix_ext m n); shapes.
    intros j i Hj Hi. cells m n. ring.
Qed.

(** ** A pass with the axes exchanged *)

Lemma compute_fluxes_transpose n m rho vx vy dx dt :
  shape n m rho -> shape n m vx -> shape n m vy ->
  compute_fluxes (transpose m rho) (transpose m vy) (transpose m vx) dx dt
  = swap_fluxes m (compute_fluxes rho vx vy dx dt).
Proof.
  intros Hrho Hvx Hvy. unfold compute_fluxes.
  rewrite (grad_transpose n m rho), (grad_transpose n m vx),
    (grad_transpose n m vy) by assumption.
  destruct (shape_grad n m rho dx Hrho) as [Hrx Hry].
  destruct (shape_grad n m vx dx Hvx) as [Hvxx Hvxy].
  destruct (shape_grad n m vy dx Hvy) as [Hvyx Hvyy].
  destruct (grad rho dx) as [rho_dx rho_dy].
  destruct (grad vx dx) as [vx_dx vx_dy].
  destruct (grad vy dx) as [vy_dx vy_dy].
  cbn [fst snd] in *. cbv zeta.
  destruct (predictor_transpose n m rho vx vy rho_dx rho_dy vx_dx vx_dy
              vy_dx vy_dy (0.5 * dt)) as (E1 & E2 & E3); try assumption.
  cbv zeta in E1, E2, E3. rewrite E1, E2, E3.
  rewrite !(extrapolate_transpose n m) by shapes.
  match goal with
  | |- context [extrapolate ?r rho_dx rho_dy dx] =>
      assert (Hr : shape n m r) by shapes;
      pose proof (shape_extrapolate n m r rho_dx rho_dy dx Hr Hrx Hry) as Her;
      destruct (extrapolate r rho_dx rho_dy dx) as [[[rho_XL rho_XR] rho_YL] rho_YR]
  end.
  match goal with
  | |- context [extrapolate ?r vx_dx vx_dy dx] =>
      assert (Hx : shape n m r) by shapes;
      pose proof (shape_extrapolate n m r vx_dx vx_dy dx Hx Hvxx Hvxy) as Hex;
      destruct (extrapolate r vx_dx vx_dy dx) as [[[vx_XL vx_XR] vx_YL] vx_YR]
  end.
  match goal with
  | |- context [extrapolate ?r vy_dx vy_dy dx] =>
      assert (Hy : shape n m r) by shapes;
      pose proof (shape_extrapolate n m r vy_dx vy_dy dx Hy Hvyx Hvyy) as Hey;
      destruct (extrapolate r vy_dx vy_dy dx) as [[[vy_XL vy_XR] vy_YL] vy_YR]
  end.
  destruct Her as (? & ? & ? & ?), Hex as (? & ? & ? & ?), Hey as (? & ? & ? & ?).
  rewrite !(get_flux_transpose n m) by assumption.
  destruct (get_flux rho_XL rho_XR vx_XL vx_XR vy_XL vy_XR) as [[? ?] ?].
  destruct (get_flux rho_YL rho_YR vy_YL vy_YR vx_YL vx_YR) as [[? ?] ?].
  reflexivity.
Qed.

Lemma wf_swap_axes n m s : wf_state n m s -> wf_state m n (swap_axes m s).
Proof.
  intros (? & ? & ?). unfold wf_state, swap_axes. cbn [Mass Momx Momy].
  auto using shape_transpose.
Qed.

Lemma primitives_swap_axes n m p s :
  wf_state n m s ->
  primitives p (swap_axes m s)
  = (transpose m (rho_of p s), transpose m (vy_of p s),
     transpose m (vx_of p s)).
Proof.
  intros (? & ? & ?). unfold primitives, swap_axes, rho_of, vx_of, vy_of.
  cbn [Mass Momx Momy]. unfold primitives.
  rewrite (primitive_variables_transpose n m) by assumption.
  destruct (primitive_variables (Mass s) (Momx s) (Momy s) (vol p))
    as [[rho vx] vy]. reflexivity.
Qed.

Lemma prims_swap_axes n m p s :
  wf_state n m s ->
  rho_of p (swap_axes m s) = transpose m (rho_of p s) /\
  vx_of p (swap_axes m s) = transpose m (vy_of p s) /\
  vy_of p (swap_axes m s) = transpose m (vx_of p s).
Proof.
  intros Hs. pose proof (primitives_swap_axes n m p s Hs) as H.
  unfold rho_of at 1, vx_of at 1, vy_of at 2. rewrite H. auto.
Qed.

Lemma advance_swap_axes n m p s dt plot :
  wf_state n m s ->
  advance p (swap_axes m s) dt plot
  = (swap_axes m (fst (advance p s dt plot)),
     option_map (transpose_frame m) (snd (advance p s dt plot))).
Proof.
  intros Hs.
  destruct (shape_primitives n m p s Hs) as (Hrho & Hvx & Hvy).
  pose proof (shape_fluxes_of n m p s dt Hs) as Hfl.
  destruct (prims_swap_axes n m p s Hs) as (Er & Ex & Ey).
  unfold advance, fluxes_of in *. rewrite Er, Ex, Ey.
  rewrite (compute_fluxes_transpose n m) by assumption.
  destruct Hs as (? & ? & ?), Hfl as (? & ? & ? & ? & ? & ?).
  cbv zeta. unfold swap_axes, swap_fluxes.
  cbn [Mass Momx Momy t outputCount fst snd flux_Mass_X flux_Momx_X
       flux_Momy_X flux_Mass_Y flux_Momx_Y flux_Momy_Y].
  rewrite !(apply_flux_transpose n m) by assumption.
  destruct plot; cbn [option_map]; unfold transpose_frame;
    cbn [frame_time plot_field];
    rewrite ?(transpose_mmap _ n m) by assumption; reflexivity.
Qed.

Lemma body_swap n m p s :
  wf_state n m s ->
  body p (swap_axes m s) =
  match body p s with
  | Ok (s', fr) => Ok (swap_axes m s', option_map (transpose_frame m) fr)
  | Raise e => Raise e
  end.
Proof.
  intros Hs.
  destruct (shape_primitives n m p s Hs) as (Hrho & Hvx & Hvy).
  rewrite !body_eq.
  destruct (prims_swap_axes n m p s Hs) as (_ & -> & ->).
  unfold get_time_step. rewrite (cfl_dt_transpose n m) by assumption.
  cbn [swap_axes t outputCount].
  destruct (cfl_dt p (vx_of p s) (vy_of p s)) as [dt|e]; cbn [bind];
    [|reflexivity].
  destruct (Rgt_dec _ _); cbn [bind fst snd];
    rewrite (advance_swap_axes n m) by assumption;
    destruct (advance p s _ _) as [s' fr]; reflexivity.
Qed.

(** X17.  A pass of the loop treats the two axes alike: transposing the
    three fields and letting x- and y-momentum change places, then running
    the pass, gives the result of the pass with its fields transposed and
    its momenta exchanged, at the same [t] and [outputCount], with the
    transposed frame; it raises exactly when the pass raises. *)
Theorem body_swap_axes n m p s :
  wf_state n m s ->
  body p (swap_axes m s) =
  match body p s with
  | Ok (s', fr) => Ok (swap_axes m s', option_map (transpose_frame m) fr)
  | Raise e => Raise e
  end.
Proof. apply body_swap. Qed.

Lemma body_swap_axes_witness :
  let s := mkState [[1; 2; 3]; [4; 5; 6]] [[0; 1; 0]; [1; 0; 1]]
                   [[2; 0; 1]; [0; 2; 1]] 0 1 in
  body main_params (swap_axes 3 s) =
  match body main_params s with
  | Ok (s', fr) => Ok (swap_axes 3 s', option_map (transpose_frame 3) fr)
  | Raise e => Raise e
  end.
Proof.
  apply (body_swap_axes 2 3 main_params
           (mkState [[1; 2; 3]; [4; 5; 6]] [[0; 1; 0]; [1; 0; 1]]
                    [[2; 0; 1]; [0; 2; 1]] 0 1)).
  unfold wf_state, shape. cbn. repeat split; repeat constructor.
Defined.

(* ================================================================= *)
(** * Uniform flows *)

Lemma compute_fluxes_const n m r u v dx dt :
  exists f1 f2 f3 f4 f5 f6,
    compute_fluxes (const_matrix n m r) (const_matrix n m u)
                   (const_matrix n m v) dx dt
    = mkFluxes (const_matrix n m f1) (const_matrix n m f2)
               (const_matrix n m f3) (const_matrix n m f4)
               (const_matrix n m f5) (const_matrix n m f6).
Proof.
  unfold compute_fluxes. rewrite !grad_const. cbv zeta. consts.
  rewrite !extrapolate_const, !get_flux_const.
  do 6 eexists. reflexivity.
Qed.

Lemma advance_const n m p a b c t0 k dt plot :
  exists s' fr,
    advance p (mkState (const_matrix n m a) (const_matrix n m b)
                       (const_matrix n m c) t0 k) dt plot
    = (s', fr) /\
    Mass s' = const_matrix n m a /\ Momx s' = const_matrix n m b /\
    Momy s' = const_matrix n m c.
Proof.
  unfold advance, fluxes_of, rho_of, vx_of, vy_of, primitives.
  cbn [Mass Momx Momy t outputCount]. rewrite primitive_variables_const.
  cbn [fst snd].
  destruct (compute_fluxes_const n m (a / vol p) (b / (a / vol p) / vol p)
              (c / (a / vol p) / vol p) (dx p) dt)
    as (f1 & f2 & f3 & f4 & f5 & f6 & ->).
  cbv zeta.
  cbn [flux_Mass_X flux_Momx_X flux_Momy_X flux_Mass_Y flux_Momx_Y flux_Momy_Y].
  rewrite !apply_flux_const.
  eexists _, _. split; [reflexivity|]. cbn [Mass Momx Momy]. auto.
Qed.

Lemma body_const n m p a b c t0 k :
  (0 < n)%nat -> (0 < m)%nat ->
  exists t1 k1 fr,
    body p (mkState (const_matrix n m a) (const_matrix n m b)
                    (const_matrix n m c) t0 k)
    = Ok (mkState (const_matrix n m a) (const_matrix n m b)
                  (const_matrix n m c) t1 k1, fr).
Proof.
  intros Hn Hm.
  assert (Hwf : wf_state n m (mkState (const_matrix n m a) (const_matrix n m b)
                                      (const_matrix n m c) t0 k))
    by (unfold wf_state; cbn; auto using shape_const).
  destruct (shape_primitives n m p _ Hwf) as (_ & Hvx & Hvy).
  destruct (cfl_dt_Ok n m p _ _ Hvx Hvy Hn Hm) as [dt Hdt].
  rewrite body_eq. unfold get_time_step. rewrite Hdt. cbn [bind].
  destruct (Rgt_dec _ _); cbn [bind fst snd];
    lazymatch goal with
    | |- context [advance _ _ ?d ?pl] =>
        destruct (advance_const n m p a b c t0 k d pl)
          as ([M1 X1 Y1 t1 k1] & fr & Hadv & E1 & E2 & E3)
    end;
    rewrite Hadv; cbn [Mass Momx Momy] in E1, E2, E3; subst M1 X1 Y1;
    eauto.
Qed.

Lemma run_const n m p a b c :
  (0 < n)%nat -> (0 < m)%nat ->
  forall fuel t0 k,
  exists s' frs,
    run p fuel (mkState (const_matrix n m a) (const_matrix n m b)
                        (const_matrix n m c) t0 k) = Ok (s', frs) /\
    Mass s' = const_matrix n m a /\ Momx s' = const_matrix n m b /\
    Momy s' = const_matrix n m c.
Proof.
  intros Hn Hm. induction fuel as [|fuel IH]; intros t0 k; cbn [run].
  - eexists _, _. split; [reflexivity|]. cbn. auto.
  - cbn [t]. destruct (Rlt_dec t0 (tEnd p)) as [_|_].
    + destruct (body_const n m p a b c t0 k Hn Hm) as (t1 & k1 & fr & ->).
      cbn [bind fst snd].
      destruct (IH t1 k1) as (s' & frs & -> & F1 & F2 & F3).
      cbn [bind fst snd]. eexists _, _. split; [reflexivity|]. auto.
    + eexists _, _. split; [reflexivity|]. cbn. auto.
Qed.

(** X19.  Every uniform flow is steady.  On a non-empty grid with
    [dx <> 0], from a state whose mass is one non-zero constant and whose
    momenta are constants, any number of passes of the loop returns the
    same three fields. *)
Theorem uniform_flow_steady p n m a b c fuel t0 k :
  dx p <> 0 -> a <> 0 -> (0 < n)%nat -> (0 < m)%nat ->
  let s0 := mkState (const_matrix n m a) (const_matrix n m b)
                    (const_matrix n m c) t0 k in
  exists s' frs,
    run p fuel s0 = Ok (s', frs) /\
    Mass s' = Mass s0 /\ Momx s' = Momx s0 /\ Momy s' = Momy s0.
Proof.
  intros _ _ Hn Hm s0. apply (run_const n m p a b c Hn Hm fuel t0 k).
Qed.

Lemma uniform_flow_steady_witness :
  let s0 := mkState (const_matrix 2 3 2) (const_matrix 2 3 1)
                    (const_matrix 2 3 (-1)) 0 1 in
  exists s' frs,
    run main_params 4 s0 = Ok (s', frs) /\
    Mass s' = Mass s0 /\ Momx s' = Momx s0 /\ Momy s' = Momy s0.
Proof.
  apply (uniform_flow_steady main_params 2 3 2 1 (-1) 4 0 1); try lia.
  - unfold dx. cbn. lra.
  - lra.
Defined.
